(** * wisdom_crowd: the correlated ensemble simulator

    A shallow embedding of [simulate_collective_accuracy] and of the
    running-average transform of [main] (wisdom_app.py).  Python floats and
    NumPy float64 values are binary64 numbers, modelled by Rocq's primitive
    floats; NumPy arrays are lists; the process-wide random generator and the
    shapes requested from [np.zeros] are threaded through a state-and-exception
    monad; the C library that Python's float power calls is a parameter. *)

From Stdlib Require Import ZArith Floats Uint63 Lia.
From stdpp Require Import base list.

Set Warnings "-inexact-float".
Set Default Proof Using "Type".

(** ** Exceptions, the world, and the monad *)

Inductive exception := ValueError | IndexError | OverflowError.

(** One value of [random_sample]: a float of the half-open interval [0, 1). *)
Record unit_sample := UnitSample {
  sample : float;
  sample_range : ((0 <=? sample) && (sample <? 1))%float = true }.

(** [source] is the generator's output stream, [drawn] counts the samples
    consumed so far, [allocated] lists the shapes handed to [np.zeros], most
    recent first (the temporary arrays of the other NumPy calls are not
    recorded). *)
Record world := World {
  source : nat → unit_sample;
  drawn : nat;
  allocated : list (list Z) }.

Definition M (A : Type) : Type := world → (exception + A) * world.

Definition ret {A} (a : A) : M A := λ w, (inr a, w).
Definition raise {A} (e : exception) : M A := λ w, (inl e, w).
Definition bind {A B} (m : M A) (k : A → M B) : M B := λ w,
  match m w with
  | (inl e, w') => (inl e, w')
  | (inr a, w') => k a w'
  end.

Notation "'let*' x := m 'in' k" := (bind m (λ x, k))
  (at level 10, x binder, m at level 100, k at level 200).

(** [for x in xs: acc = body(x, acc)] *)
Fixpoint for_each {A B} (xs : list A) (body : A → B → M B) (acc : B) : M B :=
  match xs with
  | [] => ret acc
  | x :: xs' => let* acc' := body x acc in for_each xs' body acc'
  end.

(** ** NumPy and Python primitives *)

(** An integer used where a float is expected (int64 to float64). *)
Definition float_of_int (z : Z) : float :=
  if (z <? 0)%Z then (- PrimFloat.of_uint63 (Uint63.of_Z (- z)))%float
  else PrimFloat.of_uint63 (Uint63.of_Z z).

(** A two-dimensional boolean array with its shape. *)
Record ndarray := NdArray {
  nrows : nat;
  ncols : nat;
  cells : list (list bool) }.

(** [np.zeros((rows, cols), dtype=bool)].  NumPy also refuses a shape that
    is too large for the machine (more elements than an index can count, or
    more memory than there is); the model has no such bound and describes
    the calls whose arrays fit. *)
Definition np_zeros2 (rows cols : Z) : M ndarray := λ w,
  if ((rows <? 0) || (cols <? 0))%Z then (inl ValueError, w)
  else
    let r := Z.to_nat rows in
    let c := Z.to_nat cols in
    (inr (NdArray r c (replicate r (replicate c false))),
     World (source w) (drawn w) ([rows; cols] :: allocated w)).

(** [np.zeros(n, dtype=int)] *)
Definition np_zeros1 (n : Z) : M (list Z) := λ w,
  if (n <? 0)%Z then (inl ValueError, w)
  else (inr (replicate (Z.to_nat n) 0%Z),
        World (source w) (drawn w) ([n] :: allocated w)).

(** [np.random.choice([1, 0], size=size, p=[p0, p1])], after NumPy's
    [RandomState.choice]: the probabilities are validated (no NaN, none
    negative), the cumulative distribution is normalised by its last entry,
    and every draw indexes [1, 0] by the position of a fresh uniform sample
    in it, found by [searchsorted(side='right')].  The normalised last entry
    is 1 and samples are below 1, so a sample not below the first entry
    selects 0.  The check that the probabilities sum to 1 within
    sqrt(eps) is left out: it cannot fail for [p1 = 1 - p0] once both are
    non-negative. *)
Definition draw_1_0 (cdf0 : float) (u : unit_sample) : Z :=
  if (sample u <? cdf0)%float then 1%Z else 0%Z.

Definition random_choice_1_0 (size : Z) (p0 p1 : float) : M (list Z) := λ w,
  let p_sum := (p0 + p1)%float in
  if PrimFloat.is_nan p_sum then (inl ValueError, w)
  else if ((p0 <? 0) || (p1 <? 0))%float then (inl ValueError, w)
  else if (size <? 0)%Z then (inl ValueError, w)
  else
    let cdf0 := (p0 / p_sum)%float in
    let n := Z.to_nat size in
    let uniform_samples := map (source w) (seq (drawn w) n) in
    (inr (map (draw_1_0 cdf0) uniform_samples),
     World (source w) (drawn w + n) (allocated w)).

(** [arr[:, i]] *)
Definition get_column (arr : ndarray) (i : nat) : M (list bool) :=
  if decide (i < ncols arr) then ret (map (λ row, default false (row !! i)) (cells arr))
  else raise IndexError.

(** [arr[:, i] = col] on a boolean array: numbers are stored as their truth
    value. *)
Definition set_column (arr : ndarray) (i : nat) (col : list bool) : M ndarray :=
  if decide (i < ncols arr) then
    if decide (length col = nrows arr) then
      ret (NdArray (nrows arr) (ncols arr)
             (zip_with (λ row v, <[i:=v]> row) (cells arr) col))
    else raise ValueError
  else raise IndexError.

(** [np.clip(x, lo, hi)] on float64: min(max(x, lo), hi), a NaN stays. *)
Definition np_clip (x lo hi : float) : float :=
  let m := if PrimFloat.is_nan x || (lo <? x)%float then x else lo in
  if PrimFloat.is_nan m || (m <? hi)%float then m else hi.

(** [np.sum(row)] of a boolean row. *)
Definition count_true (row : list bool) : Z :=
  Z.of_nat (length (filter (λ b, b = true) row)).

(** [np.mean(a)] of a boolean array: the float64 sum of the entries, which
    is their count as long as it is below 2^53, divided by the length. *)
Definition np_mean (a : list bool) : float :=
  (float_of_int (count_true a) / float_of_int (Z.of_nat (length a)))%float.

(** [np.cumsum(a)] of a boolean array. *)
Fixpoint cumsum_from (acc : Z) (a : list bool) : list Z :=
  match a with
  | [] => []
  | b :: a' => let acc' := (acc + Z.b2z b)%Z in acc' :: cumsum_from acc' a'
  end.
Definition np_cumsum (a : list bool) : list Z := cumsum_from 0 a.

(** [np.arange(lo, hi)] *)
Definition np_arange (lo hi : Z) : list Z :=
  map (λ k, (lo + Z.of_nat k)%Z) (seq 0 (Z.to_nat (hi - lo))).

(** ** The C library behind Python's float power

    [x ** 2] on a Python float is CPython's [float_pow] with the exponent
    2.0.  It answers the special bases itself and hands every other base, as
    its absolute value, to the platform's [pow].  That function is not
    correctly rounded: its result may differ from the rounded product x * x
    in the last place.  The library is therefore a parameter of the model,
    known only by its accuracy: the result is less than one unit in the last
    place away from the exact square. *)

(** m1 * 2^e1 < m2 * 2^e2 *)
Definition dyadic_ltb (m1 e1 m2 e2 : Z) : bool :=
  let c := Z.min e1 e2 in (m1 * 2 ^ (e1 - c) <? m2 * 2 ^ (e2 - c))%Z.

(** [y] is less than one unit in its last place away from the exact square
    of m * 2^e: a zero stands for a square below the smallest positive
    number, an infinity for a square above the largest finite one. *)
Definition square_within_ulp (m : positive) (e : Z) (y : spec_float) : bool :=
  let square := (Z.pos m * Z.pos m)%Z in
  match y with
  | S754_zero false => dyadic_ltb square (2 * e) 1 (-1074)
  | S754_finite false my ey =>
      dyadic_ltb (Z.pos my - 1) ey square (2 * e)
      && dyadic_ltb square (2 * e) (Z.pos my + 1) ey
  | S754_infinity false => dyadic_ltb (2 ^ 53 - 1) 971 square (2 * e)
  | _ => false
  end.

(** [pow_2 x] is C's [pow(x, 2.0)] for a finite positive [x]. *)
Record math_library := MathLibrary {
  pow_2 : float → float;
  pow_2_accuracy : ∀ x m e,
    Prim2SF x = S754_finite false m e →
    square_within_ulp m e (Prim2SF (pow_2 x)) = true }.

(** The value of [iv ** 2], after [float_pow] (Objects/floatobject.c): a NaN
    base is returned, an infinite base gives +inf, a zero base gives 0.0, a
    negative base is replaced by its absolute value (2 is even, the result
    is not negated), the base 1.0 gives 1.0, and [pow] does the rest. *)
Definition float_pow_2 (libm : math_library) (iv : float) : float :=
  if PrimFloat.is_nan iv then iv
  else if PrimFloat.is_infinity iv then PrimFloat.abs iv
  else if (iv =? 0)%float then 0%float
  else
    let iv := if (iv <? 0)%float then (- iv)%float else iv in
    if (iv =? 1)%float then 1%float else pow_2 libm iv.

(** [x ** 2] on a Python float: [float_pow] raises OverflowError when [pow]
    returns an infinity, which it does for a finite base only. *)
Definition py_square (libm : math_library) (x : float) : M float :=
  let y := float_pow_2 libm x in
  if PrimFloat.is_infinity y && negb (PrimFloat.is_infinity x) then raise OverflowError
  else ret y.

(** ** The simulator (wisdom_app.py, lines 7-65) *)

Section Simulator.
Variable libm : math_library.
Variables (num_learners num_simulations : Z).
Variables (individual_accuracy correlation_strength : float).

(** Line 49: learner 0. *)
Definition first_estimates (individual_estimates : ndarray) : M ndarray :=
  let* draws := random_choice_1_0 num_simulations
                  individual_accuracy (1 - individual_accuracy)%float in
  set_column individual_estimates 0 (map (λ d, negb (d =? 0)%Z) draws).

(** Lines 53-57 for one trial: the blended value of the previous
    learner's estimate and a fresh draw, and its threshold test. *)
Definition correlated_value (squared : float) (previous : bool) (fresh : Z) : float :=
  (correlation_strength * float_of_int (2 * Z.b2z previous - 1)
   + PrimFloat.sqrt (1 - squared) * float_of_int fresh)%float.

Definition estimate_of (value : float) : bool :=
  (individual_accuracy <=? np_clip value 0 1)%float.

(** Lines 53-57: the body of the loop, for learner [i]. *)
Definition next_estimates (i : nat) (individual_estimates : ndarray) : M ndarray :=
  let* previous := get_column individual_estimates (i - 1) in
  let* squared := py_square libm correlation_strength in
  let* fresh := random_choice_1_0 num_simulations
                  individual_accuracy (1 - individual_accuracy)%float in
  let correlated_values := zip_with (correlated_value squared) previous fresh in
  set_column individual_estimates i (map estimate_of correlated_values).

(** Lines 45-57: the grid of individual estimates. *)
Definition simulate_individual_estimates : M ndarray :=
  let* individual_estimates := np_zeros2 num_simulations num_learners in
  let* collective_accuracies := np_zeros1 num_simulations in
  let* individual_estimates := first_estimates individual_estimates in
  for_each (seq 1 (Z.to_nat num_learners - 1)) next_estimates individual_estimates.

(** Line 60: the majority vote of every trial. *)
Definition majority_votes (individual_estimates : ndarray) : list bool :=
  map (λ row, (num_learners `div` 2 + 1 <=? count_true row)%Z)
      (cells individual_estimates).

Definition simulate_collective_accuracy : M (float * list bool) :=
  let* individual_estimates := simulate_individual_estimates in
  let collective_accuracies := majority_votes individual_estimates in
  let mean_collective := np_mean collective_accuracies in
  ret (mean_collective, collective_accuracies).
End Simulator.

(** ** The running average of [main] (wisdom_app.py, line 87) *)

Definition cumulative_accuracies (num_simulations : Z) (collective_accuracies : list bool)
  : list float :=
  zip_with (λ c k, (float_of_int c / float_of_int k)%float)
    (np_cumsum collective_accuracies) (np_arange 1 (num_simulations + 1)).


(** ** The construction of one learner from the previous one, trial by trial

    The per-trial reading of lines 52-57: the previous learner's outcome as
    a bipolar signal, blended with a fresh draw valued in {1, 0}, clipped to
    [0, 1] and compared with the individual accuracy.  The square of the
    correlation strength is the platform's float power. *)

Definition blended_signal (libm : math_library) (correlation_strength : float)
    (previous : bool) (fresh : Z) : float :=
  let previous_bipolar := if previous then 1%float else (-1)%float in
  (correlation_strength * previous_bipolar
   + PrimFloat.sqrt (1 - float_pow_2 libm correlation_strength)
     * float_of_int fresh)%float.

Definition learner_outcome (libm : math_library)
    (individual_accuracy correlation_strength : float)
    (previous : bool) (fresh : Z) : bool :=
  (individual_accuracy
   <=? np_clip (blended_signal libm correlation_strength previous fresh) 0 1)%float.

(** The draw that [np.random.choice] hands to learner [i] in trial [t] when
    the simulator is entered in world [w]: learner by learner, all trials of
    one learner in a row. *)
Definition fresh_draw (w : world) (num_simulations : Z) (individual_accuracy : float)
    (i t : nat) : Z :=
  draw_1_0 (individual_accuracy / (individual_accuracy + (1 - individual_accuracy)))%float
    (source w (drawn w + i * Z.to_nat num_simulations + t)).

(** The chain of learners 0, 1, ..., i of one trial, given the trial's draws. *)
Fixpoint chained_outcome (libm : math_library)
    (individual_accuracy correlation_strength : float)
    (draw : nat → Z) (i : nat) : bool :=
  match i with
  | O => negb (draw O =? 0)%Z
  | S j => learner_outcome libm individual_accuracy correlation_strength
             (chained_outcome libm individual_accuracy correlation_strength draw j) (draw i)
  end.

(** ** The exact arithmetic mean

    The value of a finite binary64 number is a dyadic rational; it is
    compared with the fraction k / n by cross-multiplication. *)

(** the value of [f] is exactly k / n *)
Definition float_is_fraction (f : spec_float) (k n : Z) : Prop :=
  (match f with
   | S754_zero _ => k = 0
   | S754_finite s m e =>
       cond_Zopp s (Z.pos m) * 2 ^ Z.max e 0 * n = k * 2 ^ Z.max (- e) 0
   | _ => False
   end)%Z.

(** the value of [f] is at most half a unit in the last place of [f] away
    from k / n *)
Definition within_half_ulp (f : spec_float) (k n : Z) : Prop :=
  (match f with
   | S754_zero _ => 2 * Z.abs k * 2 ^ 1074 <= n
   | S754_finite s m e =>
       2 * Z.abs (cond_Zopp s (Z.pos m) * 2 ^ Z.max e 0 * n - k * 2 ^ Z.max (- e) 0)
       <= 2 ^ Z.max e 0 * n
   | _ => False
   end)%Z.

(** ** Ranges of binary64 numbers

    Predicates on the specification of a float ([Prim2SF]): the arithmetic of
    the simulator keeps its intermediate values within the unit interval,
    where no operation overflows or produces a NaN. *)

Section Ranges.
Local Open Scope Z_scope.

(** magnitude at most one *)
Definition unit_magnitude (f : spec_float) : Prop :=
  match f with
  | S754_zero _ => True
  | S754_finite _ m e => e <= 0 ∧ Z.pos m <= 2 ^ (- e)
  | _ => False
  end.

(** within the unit interval: a zero of either sign, or positive and at most one *)
Definition unit_interval (f : spec_float) : Prop :=
  match f with
  | S754_zero _ => True
  | S754_finite false m e => e <= 0 ∧ Z.pos m <= 2 ^ (- e)
  | _ => False
  end.

(** what the rounding functions are given: a mantissa, an exponent and
    whether the mantissa is exact, describing a real number of [0, 1] *)
Definition below_one (m e : Z) (l : location) : Prop :=
  e <= 0 ∧ 0 <= m ∧ (m < 2 ^ (- e) ∨ (m = 2 ^ (- e) ∧ l = loc_Exact)).

(** a zero or a finite number of sign [sx] and magnitude at most one *)
Definition unit_signed (sx : bool) (f : spec_float) : Prop :=
  match f with
  | S754_zero s => s = sx
  | S754_finite s m e => s = sx ∧ e <= 0 ∧ Z.pos m <= 2 ^ (- e)
  | _ => False
  end.

Definition sign_bit (f : spec_float) : bool :=
  match f with
  | S754_zero s | S754_infinity s | S754_finite s _ _ => s
  | S754_nan => false
  end.

Definition SF_one : spec_float := S754_finite false 4503599627370496 (-52).

Definition SF_finite_or_zero (f : spec_float) : Prop :=
  match f with S754_zero _ | S754_finite _ _ _ => True | _ => False end.


(** where N / D lies between two consecutive integers: the location that
    the rounding functions expect with the integer part of a quotient *)
Definition location_of (N D : Z) : location :=
  if N mod D =? 0 then loc_Exact else loc_Inexact (2 * (N mod D) ?= D).

(** a shift record that holds the integer part of N / Q and its location *)
Definition truncated (N Q : Z) (mrs : shr_record) : Prop :=
  shr_m mrs = N / Q ∧ loc_of_shr_record mrs = location_of N Q.

End Ranges.

(** ** The invariant of the loop over the learners *)

(** The grid in which learners [0..k] of every trial are in place. *)
Definition filled (libm : math_library) (w : world) (num_learners num_simulations : Z)
    (individual_accuracy correlation_strength : float) (k : nat) (g : ndarray) : Prop :=
  nrows g = Z.to_nat num_simulations ∧ ncols g = Z.to_nat num_learners
  ∧ length (cells g) = Z.to_nat num_simulations
  ∧ ∀ t row, cells g !! t = Some row →
      length row = Z.to_nat num_learners
      ∧ ∀ i, i ≤ k →
          row !! i = Some (chained_outcome libm individual_accuracy correlation_strength
                             (λ j, fresh_draw w num_simulations individual_accuracy j t) i).

(** ** Concrete inputs and the two claims that fail as stated *)

Definition uniform (x : float) (H : ((0 <=? x) && (x <? 1))%float = true) : unit_sample :=
  UnitSample x H.

Definition example_source : nat → unit_sample := λ k,
  match k with
  | 0 => uniform 0.25 eq_refl
  | 1 => uniform 0.75 eq_refl
  | 2 => uniform 0.5 eq_refl
  | _ => uniform 0.125 eq_refl
  end.

Definition example_world : world := World example_source 0 [].


(** The call returns the exact arithmetic mean of its outcomes: the number
    of true outcomes divided by their number, as a rational. *)
Definition exact_mean_returned (libm : math_library) (num_learners num_simulations : Z)
    (individual_accuracy correlation_strength : float) (w : world) : Prop :=
  ∃ mean outcomes w',
    simulate_collective_accuracy libm num_learners num_simulations
      individual_accuracy correlation_strength w = (inr (mean, outcomes), w')
    ∧ float_is_fraction (Prim2SF mean) (count_true outcomes) (Z.of_nat (length outcomes)).

(** [np.round(x, decimals)] for a small non-negative [decimals]: scale by
    the power of ten, round half to even to an integer, scale back.  The
    integer rounding of a value below 2^52 in magnitude is done as C's
    [rint] does, by adding and subtracting 2^52. *)
Definition rint (y : float) : float :=
  if (y <? 0)%float then (y - 0x1p52 + 0x1p52)%float else (y + 0x1p52 - 0x1p52)%float.

Definition np_round (decimals : Z) (x : float) : float :=
  let scale := float_of_int (10 ^ decimals) in
  (rint (x * scale) / scale)%float.

(** ** The computation of [main] (wisdom_app.py, lines 80-119)

    The page takes its four inputs from sliders, runs the simulator, derives
    the running average for the line chart, fills a second grid with
    independent draws (lines 90-92), and shows the mean as a percentage, in
    green from 50 upwards and in red below.  The Streamlit and Plotly calls
    only display these values and are not modelled. *)

Inductive colour := green | red.

Record page := Page {
  chart_x : list Z;
  chart_y : list float;
  collective_accuracy_percentage : float;
  percentage_colour : colour }.

(** The values the four sliders can return (lines 80-83). *)
Definition slider_values (num_learners num_simulations : Z)
    (individual_accuracy correlation_strength : float) : Prop :=
  (1 <= num_learners <= 5000)%Z ∧ (1 <= num_simulations <= 50000)%Z
  ∧ (0.1 <=? individual_accuracy)%float = true ∧ (individual_accuracy <=? 1)%float = true
  ∧ (correlation_strength = (-1)%float ∨ correlation_strength = 0%float
     ∨ correlation_strength = 1%float).

(** Lines 90-92. *)
Definition independent_estimates (num_learners num_simulations : Z)
    (individual_accuracy : float) : M ndarray :=
  let* individual_estimates := np_zeros2 num_simulations num_learners in
  for_each (seq 0 (Z.to_nat num_learners))
    (λ i individual_estimates,
       let* draws := random_choice_1_0 num_simulations
                       individual_accuracy (1 - individual_accuracy)%float in
       set_column individual_estimates i (map (λ d, negb (d =? 0)%Z) draws))
    individual_estimates.

Definition main (libm : math_library) (num_learners num_simulations : Z)
    (individual_accuracy correlation_strength : float) : M page :=
  let* result := simulate_collective_accuracy libm num_learners num_simulations
                   individual_accuracy correlation_strength in
  let mean_collective := fst result in
  let collective_accuracies := snd result in
  let cumulative := cumulative_accuracies num_simulations collective_accuracies in
  let* individual_estimates :=
    independent_estimates num_learners num_simulations individual_accuracy in
  let percentage := (mean_collective * 100)%float in
  ret (Page (np_arange 1 (num_simulations + 1)) cumulative percentage
         (if (50 <=? percentage)%float then green else red)).

(** * Binary64 arithmetic within the unit interval *)

Section Binary64.
Local Open Scope Z_scope.

Lemma iter_pos_nat {A} (f : A → A) p x :
  SpecFloat.iter_pos f p x = Nat.iter (Pos.to_nat p) f x.
Proof.
  revert x. induction p as [p IH|p IH|]; intros x.
  - rewrite Pos2Nat.inj_xI. cbn [SpecFloat.iter_pos]. rewrite !IH.
    replace (S (2 * Pos.to_nat p))%nat with (Pos.to_nat p + S (Pos.to_nat p))%nat by lia.
    rewrite Nat.iter_add, Nat.iter_succ_r. reflexivity.
  - rewrite Pos2Nat.inj_xO. cbn [SpecFloat.iter_pos]. rewrite !IH.
    replace (2 * Pos.to_nat p)%nat with (Pos.to_nat p + Pos.to_nat p)%nat by lia.
    rewrite Nat.iter_add. reflexivity.
  - reflexivity.
Qed.

Lemma shr_1_m mrs : 0 <= shr_m mrs → shr_m (shr_1 mrs) = shr_m mrs / 2.
Proof.
  destruct mrs as [m r s]. cbn [shr_m]. intros Hm.
  destruct m as [|[p|p|]|p]; cbn [shr_1 shr_m]; try lia; try reflexivity.
  - apply Z.div_unique with 1; lia.
  - apply Z.div_unique with 0; lia.
Qed.

Lemma shr_iter_m n mrs :
  0 <= shr_m mrs → shr_m (Nat.iter n shr_1 mrs) = shr_m mrs / 2 ^ Z.of_nat n.
Proof.
  intros Hm. induction n as [|n IH].
  - simpl. rewrite Z.div_1_r. reflexivity.
  - rewrite Nat2Z.inj_succ, Z.pow_succ_r by lia. simpl.
    rewrite shr_1_m.
    + rewrite IH. rewrite Z.mul_comm, <- Z.div_div by lia. reflexivity.
    + rewrite IH. apply Z.div_pos; lia.
Qed.

Lemma shr_1_even z :
  0 < z → shr_1 (Build_shr_record (2 * z) false false) = Build_shr_record z false false.
Proof. destruct z; simpl; intros; try lia; reflexivity. Qed.

Lemma shr_iter_pow2 n a :
  Z.of_nat n <= a →
  Nat.iter n shr_1 (Build_shr_record (2 ^ a) false false)
  = Build_shr_record (2 ^ (a - Z.of_nat n)) false false.
Proof.
  induction n as [|n IH]; intros Ha.
  - simpl. rewrite Z.sub_0_r. reflexivity.
  - simpl. rewrite IH by lia.
    replace (a - Z.of_nat n) with (Z.succ (a - Z.of_nat (S n))) by lia.
    rewrite Z.pow_succ_r by lia. apply shr_1_even. apply Z.pow_pos_nonneg; lia.
Qed.

Lemma digits2_pos_size p : digits2_pos p = Pos.size p.
Proof. induction p; simpl; congruence. Qed.

Lemma Zdigits2_upper m a : 0 <= a → 0 <= m <= 2 ^ a → Zdigits2 m <= a + 1.
Proof.
  intros Ha [Hm Hle]. destruct m as [|p|p]; simpl; try lia.
  rewrite digits2_pos_size.
  pose proof (Pos.size_le p) as Hs.
  assert (H2 : 2 ^ Z.pos (Pos.size p) <= 2 ^ (a + 1)).
  { rewrite (Z.pow_add_r 2 a 1) by lia. change (2 ^ 1) with 2.
    apply Pos2Z.pos_le_pos in Hs. rewrite Pos2Z.inj_pow in Hs.
    change (Z.pos p~0) with (2 * Z.pos p) in Hs. lia. }
  apply Z.pow_le_mono_r_iff in H2; lia.
Qed.

Lemma fexp_64 x : fexp prec emax x = Z.max (x - 53) (-1074).
Proof. reflexivity. Qed.

Lemma shr_record_of_loc_m m l : shr_m (shr_record_of_loc m l) = m.
Proof. destruct l as [|[]]; reflexivity. Qed.

Lemma loc_of_shr_record_of_loc m l : loc_of_shr_record (shr_record_of_loc m l) = l.
Proof. destruct l as [|[]]; reflexivity. Qed.

Lemma shr_fexp_nonneg m e l : 0 <= m → 0 <= shr_m (fst (shr_fexp prec emax m e l)).
Proof.
  intros Hm. unfold shr_fexp, shr.
  destruct (fexp prec emax (Zdigits2 m + e) - e) as [|p|p]; cbn [fst];
    rewrite ?shr_record_of_loc_m; try lia.
  rewrite iter_pos_nat, shr_iter_m by (rewrite shr_record_of_loc_m; lia).
  rewrite shr_record_of_loc_m. apply Z.div_pos; [lia|]. apply Z.pow_pos_nonneg; lia.
Qed.

Lemma shr_fexp_below_one m e l :
  below_one m e l →
  below_one (shr_m (fst (shr_fexp prec emax m e l)))
            (snd (shr_fexp prec emax m e l))
            (loc_of_shr_record (fst (shr_fexp prec emax m e l))).
Proof.
  intros (He & Hm & Hb). unfold shr_fexp, shr.
  assert (Hd : Zdigits2 m <= - e + 1).
  { apply Zdigits2_upper; [lia|]. destruct Hb as [?|[? _]]; lia. }
  rewrite fexp_64.
  destruct (Z.max (Zdigits2 m + e - 53) (-1074) - e) as [|p|p] eqn:Hn; cbn [fst snd];
    rewrite ?shr_record_of_loc_m, ?loc_of_shr_record_of_loc; try (split; [|split]; assumption).
  assert (He' : e + Z.pos p <= 0) by lia.
  assert (Hpow : 2 ^ (- e) = 2 ^ Z.pos p * 2 ^ (- (e + Z.pos p))).
  { rewrite <- Z.pow_add_r by lia. f_equal. lia. }
  assert (Hpos : 0 < 2 ^ Z.pos p) by (apply Z.pow_pos_nonneg; lia).
  rewrite iter_pos_nat.
  split; [assumption|]. destruct Hb as [Hlt|[Heq Hl]].
  - rewrite shr_iter_m by (rewrite shr_record_of_loc_m; lia).
    rewrite shr_record_of_loc_m, positive_nat_Z.
    split; [apply Z.div_pos; lia|]. left.
    apply Z.div_lt_upper_bound; lia.
  - subst l m. cbn [shr_record_of_loc].
    rewrite shr_iter_pow2 by (rewrite positive_nat_Z; lia).
    rewrite positive_nat_Z. cbn [shr_m loc_of_shr_record].
    replace (- e - Z.pos p) with (- (e + Z.pos p)) by lia.
    split; [apply Z.pow_nonneg; lia|]. right. split; reflexivity.
Qed.

Lemma round_nearest_even_nonneg m l : 0 <= m → 0 <= round_nearest_even m l.
Proof. intros Hm. destruct l as [|[]]; cbn; try destruct (Z.even m); lia. Qed.

Lemma below_one_exact m e : e <= 0 → 0 <= m <= 2 ^ (- e) → below_one m e loc_Exact.
Proof.
  intros He [Hm Hle]. split; [assumption|]. split; [assumption|].
  destruct (Z.eq_dec m (2 ^ (- e))); [right; split; [assumption|reflexivity]|left; lia].
Qed.

Lemma round_nearest_even_below_one m e l :
  below_one m e l → below_one (round_nearest_even m l) e loc_Exact.
Proof.
  intros (He & Hm & Hb). apply below_one_exact; [assumption|].
  destruct l as [|[]]; cbn; try destruct (Z.even m);
    destruct Hb as [Hlt|[Heq Hl]]; try discriminate; lia.
Qed.

Lemma binary_round_aux_unit sx m e l :
  below_one m e l → unit_signed sx (binary_round_aux prec emax sx m e l).
Proof.
  intros Hb. unfold binary_round_aux.
  apply shr_fexp_below_one in Hb.
  destruct (shr_fexp prec emax m e l) as [mrs' e']. cbn [fst snd] in Hb.
  apply round_nearest_even_below_one, shr_fexp_below_one in Hb.
  destruct (shr_fexp prec emax _ e' loc_Exact) as [mrs'' e'']. cbn [fst snd] in Hb.
  destruct Hb as (He & Hm & Hb).
  destruct (shr_m mrs'') as [|p|p]; [reflexivity| |lia].
  replace (e'' <=? emax - prec) with true by (symmetry; apply Z.leb_le; unfold emax, prec; lia).
  cbn. repeat split; try lia.
Qed.

Lemma binary_round_aux_not_nan sx m e l :
  0 <= m → binary_round_aux prec emax sx m e l ≠ S754_nan.
Proof.
  intros Hm. unfold binary_round_aux.
  pose proof (shr_fexp_nonneg m e l Hm) as H1.
  destruct (shr_fexp prec emax m e l) as [mrs' e']. cbn [fst] in H1.
  pose proof (shr_fexp_nonneg _ e' loc_Exact
                (round_nearest_even_nonneg _ (loc_of_shr_record mrs') H1)) as H2.
  destruct (shr_fexp prec emax _ e' loc_Exact) as [mrs'' e'']. cbn [fst] in H2.
  destruct (shr_m mrs'') as [|p|p]; [discriminate| |lia].
  destruct (e'' <=? emax - prec); discriminate.
Qed.

Lemma unit_signed_magnitude s f : unit_signed s f → unit_magnitude f.
Proof. destruct f; cbn; tauto. Qed.

Lemma unit_signed_interval f : unit_signed false f → unit_interval f.
Proof. destruct f as [| | |[]]; cbn; intuition congruence. Qed.

Lemma unit_interval_signed f : unit_interval f → unit_magnitude f.
Proof. destruct f as [| | |[]]; cbn; tauto. Qed.

Lemma SFmul_unit x y :
  unit_magnitude x → unit_magnitude y →
  unit_signed (xorb (sign_bit x) (sign_bit y)) (SFmul prec emax x y).
Proof.
  destruct x as [sx|sx| |sx mx ex], y as [sy|sy| |sy my ey]; cbn [unit_magnitude];
    try contradiction; try (intros; reflexivity).
  intros [Hex Hmx] [Hey Hmy]. cbn [SFmul sign_bit].
  apply binary_round_aux_unit, below_one_exact; [lia|].
  rewrite Pos2Z.inj_mul. split; [lia|].
  replace (- (ex + ey)) with (- ex + - ey) by lia. rewrite Z.pow_add_r by lia.
  apply Z.mul_le_mono_nonneg; lia.
Qed.

Lemma pos_iter_xO m d : Z.pos (Pos.iter xO m d) = Z.pos m * 2 ^ Z.pos d.
Proof.
  induction d as [|d IH] using Pos.peano_ind.
  - change (Pos.iter xO m 1) with (m~0)%positive. lia.
  - rewrite Pos.iter_succ, Pos2Z.inj_succ, Z.pow_succ_r by lia.
    change (Z.pos (Pos.iter xO m d)~0) with (2 * Z.pos (Pos.iter xO m d)). lia.
Qed.

Lemma shl_align_fst m e e' :
  Z.pos (fst (shl_align m e e')) = Z.pos m * 2 ^ (e - Z.min e e').
Proof.
  unfold shl_align. destruct (e' - e) as [|d|d] eqn:Hd; cbn [fst].
  - replace (e - Z.min e e') with 0 by lia. lia.
  - replace (e - Z.min e e') with 0 by lia. lia.
  - rewrite pos_iter_xO. f_equal. f_equal. lia.
Qed.

Lemma shl_align_snd m e e' : snd (shl_align m e e') = Z.min e e'.
Proof. unfold shl_align. destruct (e' - e) as [|d|d] eqn:Hd; cbn [snd]; lia. Qed.

Lemma binary_round_unit s p e :
  e <= 0 → Z.pos p <= 2 ^ (- e) → unit_signed s (binary_round prec emax s p e).
Proof.
  intros He Hp. unfold binary_round.
  pose proof (shl_align_fst p e (fexp prec emax (Z.pos (digits2_pos p) + e))) as Hf.
  pose proof (shl_align_snd p e (fexp prec emax (Z.pos (digits2_pos p) + e))) as Hs.
  destruct (shl_align p e _) as [mz ez]. cbn [fst snd] in Hf, Hs.
  rewrite <- Hs in Hf.
  apply binary_round_aux_unit, below_one_exact; [lia|]. split; [lia|].
  rewrite Hf. replace (- ez) with (- e + (e - ez)) by lia.
  rewrite Z.pow_add_r by lia. apply Z.mul_le_mono_nonneg_r; [|assumption].
  apply Z.pow_nonneg; lia.
Qed.

Lemma binary_round_not_nan s p e : binary_round prec emax s p e ≠ S754_nan.
Proof.
  unfold binary_round. destruct (shl_align p e _) as [mz ez].
  apply binary_round_aux_not_nan. lia.
Qed.

Lemma binary_normalize_not_nan m e s : binary_normalize prec emax m e s ≠ S754_nan.
Proof. destruct m; cbn; [discriminate|apply binary_round_not_nan..]. Qed.

Lemma binary_normalize_unit m e :
  e <= 0 → 0 <= m <= 2 ^ (- e) → unit_interval (binary_normalize prec emax m e false).
Proof.
  intros He [Hm Hle]. destruct m as [|p|p]; [exact I| |lia].
  apply unit_signed_interval, binary_round_unit; assumption.
Qed.

Lemma SFsub_one_unit q : unit_interval q → unit_interval (SFsub prec emax SF_one q).
Proof.
  destruct q as [s|s| |[] m e]; cbn [unit_interval]; try contradiction.
  - intros _. cbn. lia.
  - intros [He Hm]. unfold SF_one. cbn [SFsub cond_Zopp].
    rewrite !shl_align_fst.
    apply binary_normalize_unit; [lia|].
    set (ez := Z.min (-52) e).
    replace (Z.min (-52) ez) with ez by lia. replace (Z.min e ez) with ez by lia.
    assert (H1 : 4503599627370496 * 2 ^ (-52 - ez) = 2 ^ (- ez)).
    { change 4503599627370496 with (2 ^ 52). rewrite <- Z.pow_add_r by lia. f_equal. lia. }
    assert (H2 : Z.pos m * 2 ^ (e - ez) <= 2 ^ (- ez)).
    { replace (- ez) with (- e + (e - ez)) by lia. rewrite Z.pow_add_r by lia.
      apply Z.mul_le_mono_nonneg_r; [apply Z.pow_nonneg; lia|assumption]. }
    assert (H3 : 0 <= Z.pos m * 2 ^ (e - ez)) by (apply Z.mul_nonneg_nonneg; [lia|apply Z.pow_nonneg; lia]).
    rewrite H1. lia.
Qed.

Lemma SFsqrt_unit t : unit_interval t → unit_interval (SFsqrt prec emax t).
Proof.
  destruct t as [s|s| |[] m e]; cbn [unit_interval]; try contradiction.
  - intros _. exact I.
  - intros [He Hm]. cbn [SFsqrt]. unfold SFsqrt_core_binary.
    set (e' := Z.min (fexp prec emax (Z.div2 (Zdigits2 (Z.pos m) + e + 1))) (Z.div2 e)).
    assert (He2 : 2 * Z.div2 e <= e) by (rewrite Z.div2_div; apply Z.mul_div_le; lia).
    assert (He' : e' <= 0 ∧ 2 * e' <= e) by (unfold e'; lia).
    set (m' := match e - 2 * e' with Z.pos _ => Z.shiftl (Z.pos m) (e - 2 * e') | 0 => Z.pos m | Z.neg _ => 0 end).
    assert (Hm' : m' = Z.pos m * 2 ^ (e - 2 * e')).
    { unfold m'. destruct (e - 2 * e') as [|p|p] eqn:Hs; [lia| |lia].
      rewrite Z.shiftl_mul_pow2 by lia. reflexivity. }
    assert (Hle : 0 <= m' <= 2 ^ (- e') * 2 ^ (- e')).
    { rewrite Hm'. split; [apply Z.mul_nonneg_nonneg; [lia|apply Z.pow_nonneg; lia]|].
      rewrite <- Z.pow_add_r by lia. replace (- e' + - e') with (- e + (e - 2 * e')) by lia.
      rewrite Z.pow_add_r by lia.
      apply Z.mul_le_mono_nonneg_r; [apply Z.pow_nonneg; lia|assumption]. }
    clearbody m'.
    pose proof (Z.sqrtrem_spec m' (proj1 Hle)) as Hsq.
    destruct (Z.sqrtrem m') as [q r]. destruct Hsq as [Hq Hr].
    assert (Hp : 0 < 2 ^ (- e')) by (apply Z.pow_pos_nonneg; lia).
    assert (Hq0 : 0 <= q) by lia.
    apply unit_signed_interval, binary_round_aux_unit.
    split; [lia|]. split; [assumption|].
    destruct (Z.eq_dec q (2 ^ (- e'))) as [Heq|Hne].
    + right. split; [assumption|].
      replace r with 0 by nia. reflexivity.
    + left. nia.
Qed.

Lemma SFadd_not_nan x y :
  SF_finite_or_zero x → SF_finite_or_zero y → SFadd prec emax x y ≠ S754_nan.
Proof.
  destruct x as [sx|sx| |sx mx ex], y as [sy|sy| |sy my ey]; cbn [SF_finite_or_zero];
    try contradiction; intros _ _; cbn [SFadd]; try discriminate.
  - destruct sx, sy; discriminate.
  - apply binary_normalize_not_nan.
Qed.

(** ** Canonical mantissas and comparisons with 0 and 1 *)

Lemma Prim2SF_one : Prim2SF 1 = SF_one.
Proof. reflexivity. Qed.

Lemma Prim2SF_zero : Prim2SF 0 = S754_zero false.
Proof. reflexivity. Qed.

Lemma valid_finite s m e :
  valid_binary (S754_finite s m e) = true →
  Z.max (Z.pos (Pos.size m) + e - 53) (-1074) = e.
Proof.
  cbn [SpecFloat.valid_binary]. unfold bounded, canonical_mantissa.
  rewrite fexp_64, digits2_pos_size. intros H.
  apply andb_prop in H as [H _]. apply Z.eqb_eq in H. exact H.
Qed.

Lemma size_upper m : Z.pos m < 2 ^ Z.pos (Pos.size m).
Proof.
  pose proof (Pos.size_gt m) as H. apply Pos2Z.pos_lt_pos in H.
  rewrite Pos2Z.inj_pow in H. exact H.
Qed.

Lemma size_lower m : 2 ^ Z.pos (Pos.size m) <= 2 * Z.pos m.
Proof.
  pose proof (Pos.size_le m) as H. apply Pos2Z.pos_le_pos in H.
  rewrite Pos2Z.inj_pow in H. exact H.
Qed.

(** A canonical mantissa with an exponent below -52 is below 2^53 <= 2^-e. *)
Lemma valid_small_exponent s m e :
  valid_binary (S754_finite s m e) = true → e < -52 → Z.pos m <= 2 ^ (- e).
Proof.
  intros Hv He. apply valid_finite in Hv.
  pose proof (size_upper m) as Hu.
  assert (H : 2 ^ Z.pos (Pos.size m) <= 2 ^ (- e)) by (apply Z.pow_le_mono_r; lia).
  lia.
Qed.

(** A canonical mantissa of magnitude at most one has an exponent of at most -52. *)
Lemma valid_unit_exponent s m e :
  valid_binary (S754_finite s m e) = true →
  e <= 0 → Z.pos m <= 2 ^ (- e) → e <= -52.
Proof.
  intros Hv He Hm. apply valid_finite in Hv.
  destruct (Z_le_gt_dec e (-52)) as [|Hgt]; [assumption|exfalso].
  assert (Hs : Z.pos (Pos.size m) = 53) by lia.
  pose proof (size_lower m) as Hl. rewrite Hs in Hl.
  assert (H : 2 ^ (- e) <= 2 ^ 51) by (apply Z.pow_le_mono_r; lia).
  change (2 ^ 53) with (4 * 2 ^ 51) in Hl. lia.
Qed.

Lemma pos_compare_cont_le m n : Pos.compare_cont Eq m n ≠ Gt → Z.pos m <= Z.pos n.
Proof. intros H. apply Pos2Z.pos_le_pos. exact H. Qed.

Lemma pos_compare_cont_le_inv m n : Z.pos m <= Z.pos n → Pos.compare_cont Eq m n ≠ Gt.
Proof. intros H. apply Pos2Z.pos_le_pos in H. exact H. Qed.

Lemma SFleb_unit_interval f :
  valid_binary f = true →
  SFleb (S754_zero false) f = true → SFleb f SF_one = true → unit_interval f.
Proof.
  intros Hv. unfold SFleb, SF_one.
  destruct f as [s|[]| |[] m e]; cbn [SFcompare unit_interval]; intros H0 H1;
    try discriminate H0; try discriminate H1; try exact I.
  destruct (Z.compare_spec e (-52)) as [He|He|He]; try discriminate H1.
  - subst e. split; [lia|]. change (2 ^ (- -52)) with (Z.pos 4503599627370496).
    apply pos_compare_cont_le. intros Hc. rewrite Hc in H1. discriminate H1.
  - split; [lia|]. eapply valid_small_exponent; eassumption.
Qed.

Lemma unit_interval_SFleb f :
  valid_binary f = true → unit_interval f →
  SFleb (S754_zero false) f = true ∧ SFleb f SF_one = true.
Proof.
  intros Hv. unfold SFleb, SF_one.
  destruct f as [s|[]| |[] m e]; cbn [SFcompare unit_interval]; intros H;
    try contradiction; try (split; reflexivity).
  destruct H as [He Hm]. split; [reflexivity|].
  pose proof (valid_unit_exponent _ _ _ Hv He Hm) as He'.
  destruct (Z.compare_spec e (-52)) as [Heq|Hlt|Hgt]; [|reflexivity|lia].
  subst e. change (2 ^ (- -52)) with (Z.pos 4503599627370496) in Hm.
  apply pos_compare_cont_le_inv in Hm.
  destruct (Pos.compare_cont Eq m 4503599627370496); [reflexivity|reflexivity|congruence].
Qed.

Lemma SFleb_unit_magnitude f :
  valid_binary f = true →
  SFleb (SFopp SF_one) f = true → SFleb f SF_one = true → unit_magnitude f.
Proof.
  intros Hv. unfold SFleb, SF_one.
  destruct f as [s|[]| |[] m e]; cbn [SFopp negb SFcompare unit_magnitude]; intros H0 H1;
    try discriminate H0; try discriminate H1; try exact I.
  - destruct (Z.compare_spec (-52) e) as [He|He|He]; try discriminate H0.
    + subst e. split; [lia|]. change (2 ^ (- -52)) with (Z.pos 4503599627370496).
      apply pos_compare_cont_le. intros Hc.
      rewrite (Pos.compare_cont_antisym 4503599627370496 m Eq) in H0.
      cbn [CompOpp] in H0. rewrite Hc in H0. discriminate H0.
    + split; [lia|]. eapply valid_small_exponent; [eassumption|lia].
  - destruct (Z.compare_spec e (-52)) as [He|He|He]; try discriminate H1.
    + subst e. split; [lia|]. change (2 ^ (- -52)) with (Z.pos 4503599627370496).
      apply pos_compare_cont_le. intros Hc. rewrite Hc in H1. discriminate H1.
    + split; [lia|]. eapply valid_small_exponent; eassumption.
Qed.


Lemma size_unique m a : 2 ^ (a - 1) <= Z.pos m < 2 ^ a → Z.pos (Pos.size m) = a.
Proof.
  intros [Hlo Hhi].
  pose proof (size_upper m) as Hu. pose proof (size_lower m) as Hl.
  assert (Ha : 0 <= a).
  { destruct (Z_lt_le_dec a 0) as [Hneg|]; [|assumption].
    rewrite (Z.pow_neg_r 2 a) in Hhi by assumption. lia. }
  assert (H1 : a - 1 < Z.pos (Pos.size m)).
  { apply (Z.pow_lt_mono_r_iff 2); lia. }
  assert (H2 : Z.pos (Pos.size m) < a + 1).
  { apply (Z.pow_lt_mono_r_iff 2); [lia|lia|].
    rewrite Z.pow_add_r by lia. change (2 ^ 1) with 2. lia. }
  lia.
Qed.

Lemma binary_round_aux_canonical s m e :
  fexp prec emax (Z.pos (digits2_pos m) + e) = e → e <= emax - prec →
  binary_round_aux prec emax s (Z.pos m) e loc_Exact = S754_finite s m e.
Proof.
  intros Hc He. unfold binary_round_aux, shr_fexp. cbn [Zdigits2].
  rewrite Hc, Z.sub_diag. cbn [shr shr_record_of_loc shr_m loc_of_shr_record round_nearest_even Zdigits2].
  rewrite Hc, Z.sub_diag. cbn [shr shr_record_of_loc shr_m].
  apply Z.leb_le in He. rewrite He. reflexivity.
Qed.

(** An integer below 2^53 is converted without rounding. *)
Lemma binary_normalize_exact z :
  0 < z < 2 ^ 53 →
  ∃ m e, binary_normalize prec emax z 0 false = S754_finite false m e
         ∧ e <= 0 ∧ Z.pos m = z * 2 ^ (- e).
Proof.
  intros [Hz Hlt]. destruct z as [|p|p]; try lia. cbn [binary_normalize].
  unfold binary_round.
  set (d := Z.pos (digits2_pos p)).
  assert (Hd : 1 <= d <= 53).
  { unfold d. rewrite digits2_pos_size. split; [lia|].
    pose proof (size_lower p) as Hl.
    assert (H : 2 ^ Z.pos (Pos.size p) < 2 ^ 54) by (change (2 ^ 54) with (2 * 2 ^ 53); lia).
    apply Z.pow_lt_mono_r_iff in H; lia. }
  pose proof (shl_align_fst p 0 (fexp prec emax (d + 0))) as Hf.
  pose proof (shl_align_snd p 0 (fexp prec emax (d + 0))) as Hs.
  destruct (shl_align p 0 _) as [mz ez]. cbn [fst snd] in Hf, Hs.
  rewrite fexp_64 in Hf, Hs.
  assert (Hez : ez = d - 53) by lia.
  replace (0 - Z.min 0 (Z.max (d + 0 - 53) (-1074))) with (- ez) in Hf by lia.
  exists mz, ez. split; [|split; [lia|assumption]].
  apply binary_round_aux_canonical; [|unfold emax, prec; lia].
  rewrite fexp_64, digits2_pos_size.
  assert (Hsz : Z.pos (Pos.size mz) = 53).
  { apply size_unique. rewrite Hf.
    pose proof (size_upper p) as Hu. pose proof (size_lower p) as Hl.
    rewrite <- digits2_pos_size in Hu, Hl. fold d in Hu, Hl.
    assert (Hp : 0 < 2 ^ (- ez)) by (apply Z.pow_pos_nonneg; lia).
    assert (H53 : 2 ^ 53 = 2 ^ d * 2 ^ (- ez)).
    { rewrite <- Z.pow_add_r by lia. f_equal. lia. }
    assert (HA : Z.pos p * 2 ^ (- ez) < 2 ^ d * 2 ^ (- ez))
      by (apply Z.mul_lt_mono_pos_r; assumption).
    assert (HB : 2 ^ d * 2 ^ (- ez) <= 2 * Z.pos p * 2 ^ (- ez))
      by (apply Z.mul_le_mono_nonneg_r; lia).
    rewrite <- H53 in HA, HB. change (2 ^ (53 - 1)) with (2 ^ 52).
    change (2 ^ 53) with (2 * 2 ^ 52) in HB. split; lia. }
  rewrite Hsz. lia.
Qed.

Lemma new_location_zero m : new_location m 0 = loc_Exact.
Proof. unfold new_location. destruct (Z.even m); reflexivity. Qed.

(** The quotient of two positive numbers, the first at most the second. *)
Lemma SFdiv_unit m1 e1 m2 e2 :
  e1 <= 0 → e2 <= 0 → Z.pos m1 * 2 ^ (- e2) <= Z.pos m2 * 2 ^ (- e1) →
  unit_interval (SFdiv prec emax (S754_finite false m1 e1) (S754_finite false m2 e2)).
Proof.
  intros He1 He2 Hle. cbn [SFdiv xorb]. unfold SFdiv_core_binary. cbn [Zdigits2].
  rewrite (digits2_pos_size m1), (digits2_pos_size m2), fexp_64.
  set (d1 := Z.pos (Pos.size m1)). set (d2 := Z.pos (Pos.size m2)).
  assert (Hd : d1 + e1 < d2 + e2 + 1).
  { pose proof (size_lower m1) as Hl. pose proof (size_upper m2) as Hu.
    fold d1 in Hl. fold d2 in Hu.
    assert (Hp1 : 0 < 2 ^ (- e1)) by (apply Z.pow_pos_nonneg; lia).
    assert (Hp2 : 0 < 2 ^ (- e2)) by (apply Z.pow_pos_nonneg; lia).
    assert (H : 2 ^ (d1 - e2) < 2 ^ (d2 - e1 + 1)).
    { unfold Z.sub. rewrite !Z.pow_add_r by lia. change (2 ^ 1) with 2. nia. }
    apply Z.pow_lt_mono_r_iff in H; lia. }
  set (e' := Z.min (Z.max (d1 + e1 - (d2 + e2) - 53) (-1074)) (e1 - e2)).
  assert (He' : e' <= 0 ∧ e' <= e1 - e2) by (unfold e'; lia).
  set (m' := match e1 - e2 - e' with
             | Z.pos _ => Z.shiftl (Z.pos m1) (e1 - e2 - e') | 0 => Z.pos m1 | Z.neg _ => 0 end).
  assert (Hm' : m' = Z.pos m1 * 2 ^ (e1 - e2 - e')).
  { unfold m'. destruct (e1 - e2 - e') as [|p|p] eqn:Hs; [lia| |lia].
    rewrite Z.shiftl_mul_pow2 by lia. reflexivity. }
  assert (Hb : 0 <= m' <= Z.pos m2 * 2 ^ (- e')).
  { rewrite Hm'.
    assert (Hps : 0 < 2 ^ (e1 - e2 - e')) by (apply Z.pow_pos_nonneg; lia).
    assert (Hp2 : 0 < 2 ^ (- e2)) by (apply Z.pow_pos_nonneg; lia).
    split; [nia|].
    apply (Z.mul_le_mono_pos_r _ _ (2 ^ (- e2))); [assumption|].
    assert (Heq : 2 ^ (- e') * 2 ^ (- e2) = 2 ^ (- e1) * 2 ^ (e1 - e2 - e')).
    { rewrite <- !Z.pow_add_r by lia. f_equal. lia. }
    assert (H1 : Z.pos m1 * 2 ^ (- e2) * 2 ^ (e1 - e2 - e')
                 <= Z.pos m2 * 2 ^ (- e1) * 2 ^ (e1 - e2 - e'))
      by (apply Z.mul_le_mono_nonneg_r; lia).
    rewrite <- (Z.mul_assoc (Z.pos m2)), Heq. lia. }
  clearbody m'.
  pose proof (Z_div_mod m' (Z.pos m2) ltac:(lia)) as Hdm.
  destruct (Z.div_eucl m' (Z.pos m2)) as [q r]. destruct Hdm as [Hq Hr].
  assert (Hp : 0 < 2 ^ (- e')) by (apply Z.pow_pos_nonneg; lia).
  apply unit_signed_interval, binary_round_aux_unit.
  split; [lia|]. split; [nia|].
  destruct (Z.eq_dec q (2 ^ (- e'))) as [Heq|Hne].
  - right. split; [assumption|].
    replace r with 0 by nia. apply new_location_zero.
  - left. nia.
Qed.

(** ** Rounding to nearest: what [binary_round_aux] returns *)

Lemma shr_1_spec m r s :
  0 <= m →
  shr_1 (Build_shr_record m r s) = Build_shr_record (Z.div2 m) (Z.odd m) (r || s).
Proof. destruct m as [|[p|p|]|p]; intros; try lia; reflexivity. Qed.

Lemma div_mod_double N Q :
  0 <= N → 0 < Q →
  N / (2 * Q) = Z.div2 (N / Q)
  ∧ N mod (2 * Q) = (if Z.odd (N / Q) then Q else 0) + N mod Q.
Proof.
  intros HN HQ.
  pose proof (Z.div_mod N Q ltac:(lia)) as Hdm.
  pose proof (Z.mod_pos_bound N Q HQ) as Hr.
  pose proof (Z.div2_odd (N / Q)) as Ha.
  set (a := N / Q) in *. set (r := N mod Q) in *.
  assert (Heq : N = 2 * Q * Z.div2 a + ((if Z.odd a then Q else 0) + r)).
  { destruct (Z.odd a); cbn [Z.b2z] in Ha; nia. }
  assert (Hb : 0 <= (if Z.odd a then Q else 0) + r < 2 * Q)
    by (destruct (Z.odd a); lia).
  split.
  - symmetry. eapply Z.div_unique_pos; eassumption.
  - symmetry. eapply Z.mod_unique_pos; eassumption.
Qed.

Lemma truncated_shr_1 N Q mrs :
  0 <= N → 0 < Q → truncated N Q mrs → truncated N (2 * Q) (shr_1 mrs).
Proof.
  intros HN HQ [Hm Hl]. destruct mrs as [m r s]. cbn [shr_m] in Hm. subst m.
  rewrite shr_1_spec by (apply Z.div_pos; lia).
  destruct (div_mod_double N Q HN HQ) as [Hd Hmod].
  pose proof (Z.mod_pos_bound N Q HQ) as Hr.
  split; cbn [shr_m]; [symmetry; exact Hd|].
  unfold location_of in *. rewrite Hmod. cbn [loc_of_shr_record] in *.
  destruct (Z.eqb_spec (N mod Q) 0) as [H0|H0];
    destruct (Z.compare_spec (2 * (N mod Q)) Q) as [Hc|Hc|Hc];
    destruct r, s; try discriminate Hl; cbn [orb];
    destruct (Z.odd (N / Q));
    repeat match goal with
           | |- context [Z.eqb ?a ?b] => destruct (Z.eqb_spec a b)
           | |- context [Z.compare ?a ?b] => destruct (Z.compare_spec a b)
           end; try reflexivity; try lia.
Qed.

Lemma truncated_iter N Q mrs n :
  0 <= N → 0 < Q → truncated N Q mrs →
  truncated N (Q * 2 ^ Z.of_nat n) (Nat.iter n shr_1 mrs).
Proof.
  intros HN HQ H. induction n as [|n IH].
  - cbn [Nat.iter]. change (2 ^ Z.of_nat 0) with 1. rewrite Z.mul_1_r. exact H.
  - cbn [Nat.iter]. rewrite Nat2Z.inj_succ, Z.pow_succ_r by lia.
    replace (Q * (2 * 2 ^ Z.of_nat n)) with (2 * (Q * 2 ^ Z.of_nat n)) by lia.
    apply truncated_shr_1; [assumption| |assumption].
    apply Z.mul_pos_pos; [assumption|]. apply Z.pow_pos_nonneg; lia.
Qed.

Lemma truncated_of_loc N D :
  0 < D → truncated N D (shr_record_of_loc (N / D) (location_of N D)).
Proof.
  intros HD. split; [apply shr_record_of_loc_m|apply loc_of_shr_record_of_loc].
Qed.

(** The first shift of [binary_round_aux]: the quotient N / D at exponent e
    is brought to the exponent of its binade. *)
Lemma shr_fexp_truncated N D e :
  0 <= N → 0 < D →
  let e1 := Z.max e (fexp prec emax (Zdigits2 (N / D) + e)) in
  ∃ mrs, shr_fexp prec emax (N / D) e (location_of N D) = (mrs, e1)
         ∧ truncated N (D * 2 ^ (e1 - e)) mrs.
Proof.
  intros HN HD e1. unfold shr_fexp, shr.
  destruct (fexp prec emax (Zdigits2 (N / D) + e) - e) as [|p|p] eqn:Hn.
  - eexists. split; [f_equal; unfold e1; lia|].
    replace (e1 - e) with 0 by (unfold e1; lia). rewrite Z.mul_1_r.
    apply truncated_of_loc. assumption.
  - eexists. split; [f_equal; unfold e1; lia|].
    rewrite iter_pos_nat.
    replace (e1 - e) with (Z.of_nat (Pos.to_nat p)) by (unfold e1; lia).
    apply truncated_iter; [assumption..|]. apply truncated_of_loc. assumption.
  - eexists. split; [f_equal; unfold e1; lia|].
    replace (e1 - e) with 0 by (unfold e1; lia). rewrite Z.mul_1_r.
    apply truncated_of_loc. assumption.
Qed.

(** Rounding to nearest, ties to even. *)
Lemma round_nearest_even_spec N Q :
  0 <= N → 0 < Q →
  let m2 := round_nearest_even (N / Q) (location_of N Q) in
  N / Q <= m2 <= N / Q + 1
  ∧ 2 * Z.abs (m2 * Q - N) <= Q
  ∧ (N mod Q = 0 → m2 = N / Q).
Proof.
  intros HN HQ m2.
  pose proof (Z.div_mod N Q ltac:(lia)) as Hdm.
  pose proof (Z.mod_pos_bound N Q HQ) as Hr.
  unfold m2, location_of.
  destruct (Z.eqb_spec (N mod Q) 0) as [H0|H0];
    [|destruct (Z.compare_spec (2 * (N mod Q)) Q) as [Hc|Hc|Hc]];
    cbn [round_nearest_even]; try destruct (Z.even (N / Q));
    (split; [lia|split; [nia|intros; lia]]).
Qed.

(** ** The number of binary digits *)

Lemma Zdigits2_nonneg m : 0 <= Zdigits2 m.
Proof. destruct m; cbn; lia. Qed.

Lemma Zdigits2_bound m : 0 <= m → m < 2 ^ Zdigits2 m.
Proof.
  destruct m as [|p|p]; intros H; try lia.
  - reflexivity.
  - cbn [Zdigits2]. rewrite digits2_pos_size. apply size_upper.
Qed.

Lemma Zdigits2_pow m : 0 < m → 2 ^ (Zdigits2 m - 1) <= m.
Proof.
  destruct m as [|p|p]; intros H; try lia. cbn [Zdigits2].
  rewrite digits2_pos_size. pose proof (size_lower p) as Hl.
  replace (Z.pos (Pos.size p)) with (Z.succ (Z.pos (Pos.size p) - 1)) in Hl by lia.
  rewrite Z.pow_succ_r in Hl by lia. lia.
Qed.

Lemma Zdigits2_unique m d : 2 ^ (d - 1) <= m < 2 ^ d → 0 < m → Zdigits2 m = d.
Proof.
  destruct m as [|p|p]; intros H Hm; try lia. cbn [Zdigits2].
  rewrite digits2_pos_size. apply size_unique. exact H.
Qed.

Lemma Zdigits2_lt m a : 0 <= a → 0 <= m < 2 ^ a → Zdigits2 m <= a.
Proof.
  intros Ha [Hm Hlt]. destruct (Z.eq_dec m 0) as [->|Hne]; [cbn; lia|].
  pose proof (Zdigits2_pow m ltac:(lia)) as Hp.
  pose proof (Zdigits2_nonneg m) as Hn.
  assert (H : 2 ^ (Zdigits2 m - 1) < 2 ^ a) by lia.
  destruct (Z_le_gt_dec (Zdigits2 m) a) as [|Hgt]; [assumption|exfalso].
  assert (2 ^ a <= 2 ^ (Zdigits2 m - 1)) by (apply Z.pow_le_mono_r; lia). lia.
Qed.

Lemma Zdigits2_zero m : 0 <= m → Zdigits2 m = 0 → m = 0.
Proof. destruct m; cbn; intros; lia. Qed.

Lemma Zdigits2_pow2 k : 0 <= k → Zdigits2 (2 ^ k) = k + 1.
Proof.
  intros Hk. apply Zdigits2_unique.
  - replace (k + 1 - 1) with k by lia. split; [lia|].
    apply Z.pow_lt_mono_r; lia.
  - apply Z.pow_pos_nonneg; lia.
Qed.

Lemma Zdigits2_mono m n : 0 <= m <= n → Zdigits2 m <= Zdigits2 n.
Proof.
  intros [Hm Hle]. apply Zdigits2_lt; [apply Zdigits2_nonneg|].
  split; [assumption|]. pose proof (Zdigits2_bound n ltac:(lia)). lia.
Qed.

Lemma Zdigits2_succ a :
  0 <= a → Zdigits2 (a + 1) = Zdigits2 a
           ∨ (a + 1 = 2 ^ Zdigits2 a ∧ Zdigits2 (a + 1) = Zdigits2 a + 1).
Proof.
  intros Ha. pose proof (Zdigits2_bound a Ha) as Hb.
  pose proof (Zdigits2_nonneg a) as Hn.
  destruct (Z.eq_dec (a + 1) (2 ^ Zdigits2 a)) as [Heq|Hne].
  - right. split; [assumption|]. rewrite Heq. apply Zdigits2_pow2. assumption.
  - left. apply Z.le_antisymm.
    + apply Zdigits2_lt; lia.
    + apply Zdigits2_mono. lia.
Qed.

Lemma Zdigits2_div_pow2 m n :
  0 <= m → 0 <= n → Zdigits2 (m / 2 ^ n) = Z.max (Zdigits2 m - n) 0.
Proof.
  intros Hm Hn. pose proof (Zdigits2_bound m Hm) as Hb.
  pose proof (Zdigits2_nonneg m) as Hd.
  assert (Hp : 0 < 2 ^ n) by (apply Z.pow_pos_nonneg; lia).
  destruct (Z_lt_le_dec n (Zdigits2 m)) as [Hlt|Hge].
  - replace (Z.max (Zdigits2 m - n) 0) with (Zdigits2 m - n) by lia.
    assert (Hm0 : 0 < m) by (destruct (Z.eq_dec m 0) as [->|]; [cbn in Hlt; lia|lia]).
    pose proof (Zdigits2_pow m Hm0) as Hl.
    assert (H1 : 2 ^ (Zdigits2 m - 1) = 2 ^ (Zdigits2 m - n - 1) * 2 ^ n).
    { rewrite <- Z.pow_add_r by lia. f_equal. lia. }
    assert (H2 : 2 ^ Zdigits2 m = 2 ^ (Zdigits2 m - n) * 2 ^ n).
    { rewrite <- Z.pow_add_r by lia. f_equal. lia. }
    assert (Hlo : 2 ^ (Zdigits2 m - n - 1) <= m / 2 ^ n).
    { apply Z.div_le_lower_bound; lia. }
    assert (Hhi : m / 2 ^ n < 2 ^ (Zdigits2 m - n)).
    { apply Z.div_lt_upper_bound; lia. }
    apply Zdigits2_unique; [split; assumption|].
    assert (0 < 2 ^ (Zdigits2 m - n - 1)) by (apply Z.pow_pos_nonneg; lia). lia.
  - replace (Z.max (Zdigits2 m - n) 0) with 0 by lia.
    assert (H : 2 ^ Zdigits2 m <= 2 ^ n) by (apply Z.pow_le_mono_r; lia).
    rewrite Z.div_small by lia. reflexivity.
Qed.

(** The second shift of [binary_round_aux]: after rounding, the mantissa has
    at most one digit too many, and then it is a power of two. *)
Lemma shr_fexp_carry a m2 e1 :
  0 <= a → a <= m2 <= a + 1 → fexp prec emax (Zdigits2 a + e1) <= e1 →
  ∃ mrs e3, shr_fexp prec emax m2 e1 loc_Exact = (mrs, e3)
            ∧ 0 <= shr_m mrs ∧ shr_m mrs * 2 ^ (e3 - e1) = m2 ∧ e1 <= e3 <= e1 + 1
            ∧ fexp prec emax (Zdigits2 (shr_m mrs) + e3) <= e3
            ∧ (fexp prec emax (Zdigits2 a + e1) = e1 →
               fexp prec emax (Zdigits2 (shr_m mrs) + e3) = e3).
Proof.
  intros Ha Hm2 Hfit. rewrite fexp_64 in Hfit |- *.
  assert (Hd2 : Zdigits2 a <= Zdigits2 m2) by (apply Zdigits2_mono; lia).
  pose proof (Zdigits2_nonneg a) as Hda.
  assert (Hcase : Zdigits2 m2 = Zdigits2 a
                  ∨ (m2 = 2 ^ Zdigits2 a ∧ Zdigits2 m2 = Zdigits2 a + 1)).
  { destruct (Z.eq_dec m2 a) as [->|Hne]; [left; reflexivity|].
    replace m2 with (a + 1) by lia.
    destruct (Zdigits2_succ a Ha) as [H|[H1 H2]]; [left|right]; auto. }
  unfold shr_fexp, shr. rewrite !fexp_64.
  destruct (Z.max (Zdigits2 m2 + e1 - 53) (-1074) - e1) as [|p|p] eqn:Hn.
  - exists (shr_record_of_loc m2 loc_Exact), e1. cbn [shr_record_of_loc shr_m].
    rewrite Z.sub_diag. change (2 ^ 0) with 1. rewrite Z.mul_1_r.
    rewrite !fexp_64. destruct Hcase as [Heq|[Hpow Heq]]; repeat split; lia.
  - destruct Hcase as [Heq|[Hpow Heq]]; [lia|].
    assert (Hp : p = 1%positive) by lia. subst p.
    assert (Hda1 : 1 <= Zdigits2 a).
    { destruct (Z.eq_dec (Zdigits2 a) 0) as [H0|]; [|lia]. lia. }
    exists (Build_shr_record (2 ^ (Zdigits2 a - 1)) false false), (e1 + 1).
    assert (Hpos : 0 < 2 ^ (Zdigits2 a - 1)) by (apply Z.pow_pos_nonneg; lia).
    split.
    { cbn [SpecFloat.iter_pos shr_record_of_loc]. f_equal. rewrite Hpow.
      replace (Zdigits2 a) with (Z.succ (Zdigits2 a - 1)) at 1 by lia.
      rewrite Z.pow_succ_r by lia. apply shr_1_even. assumption. }
    cbn [shr_m]. rewrite Zdigits2_pow2 by lia.
    replace (e1 + 1 - e1) with 1 by lia.
    split; [lia|]. split.
    { rewrite Hpow. replace (Zdigits2 a) with (Z.succ (Zdigits2 a - 1)) at 2 by lia.
      rewrite Z.pow_succ_r by lia. lia. }
    rewrite !fexp_64. repeat split; lia.
  - exists (shr_record_of_loc m2 loc_Exact), e1. cbn [shr_record_of_loc shr_m].
    rewrite Z.sub_diag. change (2 ^ 0) with 1. rewrite Z.mul_1_r.
    rewrite !fexp_64. destruct Hcase as [Heq|[Hpow Heq]]; repeat split; lia.
Qed.

(** [binary_round_aux] on the quotient N / D at exponent e: the result is the
    multiple of 2^e1 nearest to N / D * 2^e, where e1 is the exponent of the
    binade of the quotient; a carry into the next binade is renormalised. *)
Lemma binary_round_aux_spec s N D e :
  0 <= N → 0 < D →
  let e1 := Z.max e (fexp prec emax (Zdigits2 (N / D) + e)) in
  let Q := D * 2 ^ (e1 - e) in
  ∃ m2 m3 e3,
    N / Q <= m2 <= N / Q + 1 ∧ 2 * Z.abs (m2 * Q - N) <= Q ∧ (N mod Q = 0 → m2 = N / Q)
    ∧ 0 <= m3 ∧ m3 * 2 ^ (e3 - e1) = m2 ∧ e1 <= e3 <= e1 + 1
    ∧ fexp prec emax (Zdigits2 m3 + e3) <= e3
    ∧ (e <= fexp prec emax (Zdigits2 (N / D) + e) → fexp prec emax (Zdigits2 m3 + e3) = e3)
    ∧ binary_round_aux prec emax s (N / D) e (location_of N D)
      = match m3 with
        | 0 => S754_zero s
        | Z.pos m => if e3 <=? emax - prec then S754_finite s m e3 else S754_infinity s
        | Z.neg _ => S754_nan
        end.
Proof.
  intros HN HD e1 Q.
  assert (Hn : 0 <= e1 - e) by (unfold e1; lia).
  assert (Hp : 0 < 2 ^ (e1 - e)) by (apply Z.pow_pos_nonneg; lia).
  assert (HQ : 0 < Q) by (unfold Q; lia).
  destruct (shr_fexp_truncated N D e HN HD) as (mrs & Hshr & Hm & Hl).
  fold e1 in Hshr. fold e1 Q in Hm, Hl.
  destruct (round_nearest_even_spec N Q HN HQ) as (Hm2 & Herr & Hexact).
  set (m2 := round_nearest_even (N / Q) (location_of N Q)) in *.
  assert (Ha : N / Q = N / D / 2 ^ (e1 - e)) by (unfold Q; rewrite Z.div_div; lia).
  assert (Hq : 0 <= N / D) by (apply Z.div_pos; lia).
  pose proof (Zdigits2_div_pow2 (N / D) (e1 - e) Hq Hn) as Hda. rewrite <- Ha in Hda.
  pose proof (Zdigits2_nonneg (N / D)) as Hdq.
  assert (Hfit : fexp prec emax (Zdigits2 (N / Q) + e1) <= e1).
  { rewrite Hda. unfold e1. rewrite !fexp_64. lia. }
  destruct (shr_fexp_carry (N / Q) m2 e1 ltac:(apply Z.div_pos; lia) Hm2 Hfit)
    as (mrs' & e3 & Hshr' & Hm3 & Hval & He3 & Hfit3 & Hcan3).
  exists m2, (shr_m mrs'), e3.
  split; [exact Hm2|]. split; [exact Herr|]. split; [exact Hexact|].
  split; [exact Hm3|]. split; [exact Hval|]. split; [exact He3|].
  split; [exact Hfit3|]. split.
  { intros Hcan. apply Hcan3. rewrite Hda. unfold e1 in *. rewrite !fexp_64 in *. lia. }
  unfold binary_round_aux. rewrite Hshr, Hm, Hl. fold m2. rewrite Hshr'. reflexivity.
Qed.

Lemma new_location_of N D : 0 < D → new_location D (N mod D) = location_of N D.
Proof.
  intros HD. pose proof (Z.mod_pos_bound N D HD) as Hr.
  unfold new_location, new_location_even, new_location_odd, location_of.
  destruct (Z.even D) eqn:Heven; destruct (Z.eqb_spec (N mod D) 0) as [H0|H0];
    try reflexivity.
  f_equal.
  assert (Hodd : Z.odd D = true) by (rewrite <- Z.negb_even, Heven; reflexivity).
  apply Z.odd_spec in Hodd as [k Hk].
  destruct (Z.compare_spec (2 * (N mod D) + 1) D);
    destruct (Z.compare_spec (2 * (N mod D)) D); try reflexivity; lia.
Qed.

(** ** Comparing m1 * 2^e1 with m2 * 2^e2 *)

Lemma dyadic_ltb_scaled m1 e1 m2 e2 c :
  c <= e1 → c <= e2 →
  dyadic_ltb m1 e1 m2 e2 = true ↔ m1 * 2 ^ (e1 - c) < m2 * 2 ^ (e2 - c).
Proof.
  intros H1 H2. unfold dyadic_ltb. rewrite Z.ltb_lt.
  set (c0 := Z.min e1 e2).
  assert (Hp : 0 < 2 ^ (c0 - c)) by (apply Z.pow_pos_nonneg; unfold c0; lia).
  replace (e1 - c) with (e1 - c0 + (c0 - c)) by lia.
  replace (e2 - c) with (e2 - c0 + (c0 - c)) by lia.
  rewrite !Z.pow_add_r, !Z.mul_assoc by (unfold c0; lia).
  split; intros H.
  - apply Z.mul_lt_mono_pos_r; assumption.
  - apply Z.mul_lt_mono_pos_r in H; assumption.
Qed.

Lemma Zdigits2_lower m a : 0 <= a → 2 ^ a <= m → a + 1 <= Zdigits2 m.
Proof.
  intros Ha Hm.
  assert (H0 : 0 < 2 ^ a) by (apply Z.pow_pos_nonneg; lia).
  pose proof (Zdigits2_bound m ltac:(lia)) as Hb.
  pose proof (Zdigits2_nonneg m) as Hn.
  assert (H : 2 ^ a < 2 ^ Zdigits2 m) by lia.
  apply Z.pow_lt_mono_r_iff in H; lia.
Qed.

(** The correctly rounded product of a positive binary64 number with itself
    meets the accuracy bound that is asked of the library. *)
Lemma SFmul_square_within_ulp m e :
  valid_binary (S754_finite false m e) = true →
  square_within_ulp m e (SFmul prec emax (S754_finite false m e) (S754_finite false m e))
  = true.
Proof.
  intros Hv. apply valid_finite in Hv. cbn [SFmul xorb].
  rewrite Pos2Z.inj_mul. set (N := Z.pos m * Z.pos m).
  assert (HN : 0 < N) by (unfold N; lia).
  assert (Hloc : loc_Exact = location_of N 1).
  { unfold location_of. rewrite Z.mod_1_r. reflexivity. }
  rewrite Hloc.
  pose proof (binary_round_aux_spec false N 1 (e + e) ltac:(lia) ltac:(lia)) as HT.
  cbv zeta in HT. rewrite Z.div_1_r, Z.mul_1_l in HT.
  (* the square has about twice as many digits as the number *)
  assert (HdN : 2 * Z.pos (Pos.size m) - 1 <= Zdigits2 N).
  { pose proof (size_lower m) as Hl.
    replace (2 * Z.pos (Pos.size m) - 1) with (2 * (Z.pos (Pos.size m) - 1) + 1) by lia.
    apply Zdigits2_lower; [lia|].
    replace (2 * (Z.pos (Pos.size m) - 1))
      with ((Z.pos (Pos.size m) - 1) + (Z.pos (Pos.size m) - 1)) by lia.
    rewrite Z.pow_add_r by lia.
    replace (Z.pos (Pos.size m)) with (Z.succ (Z.pos (Pos.size m) - 1)) in Hl by lia.
    rewrite Z.pow_succ_r in Hl by lia.
    assert (0 < 2 ^ (Z.pos (Pos.size m) - 1)) by (apply Z.pow_pos_nonneg; lia).
    unfold N. nia. }
  rewrite !fexp_64 in HT.
  assert (He1 : Z.max (e + e) (Z.max (Zdigits2 N + (e + e) - 53) (-1074))
                = Z.max (Zdigits2 N + (e + e) - 53) (-1074)) by lia.
  rewrite He1 in HT.
  set (e1 := Z.max (Zdigits2 N + (e + e) - 53) (-1074)) in *.
  assert (Hshift : e + e < e1) by (unfold e1; lia).
  set (Q := 2 ^ (e1 - (e + e))) in *.
  assert (HQ : 0 < Q) by (apply Z.pow_pos_nonneg; lia).
  destruct HT as (m2 & m3 & e3 & Hm2 & Herr & Hexact & Hm3 & Hval & He3 & Hfit & Hcan & ->).
  specialize (Hcan ltac:(lia)).
  pose proof (Zdigits2_div_pow2 N (e1 - (e + e)) ltac:(lia) ltac:(lia)) as Hda.
  fold Q in Hda.
  pose proof (Z.div_mod N Q ltac:(lia)) as Hdm.
  pose proof (Z.mod_pos_bound N Q HQ) as Hr.
  assert (HP : 2 ^ (e3 - (e + e)) = 2 ^ (e3 - e1) * Q).
  { unfold Q. rewrite <- Z.pow_add_r by lia. f_equal. lia. }
  assert (HPQ : 0 < 2 ^ (e3 - e1)) by (apply Z.pow_pos_nonneg; lia).
  assert (HPle : Q <= 2 ^ (e3 - (e + e))) by nia.
  assert (Hm2Q : m2 * Q = m3 * 2 ^ (e3 - (e + e))) by (rewrite HP, <- Hval; ring).
  destruct m3 as [|p|p]; [| |lia].
  - (* underflow to zero *)
    cbn [square_within_ulp]. fold N.
    assert (Hm2z : m2 = 0) by lia. subst m2.
    assert (Hsmall : N < Q) by lia.
    assert (HdQ : Zdigits2 N <= e1 - (e + e)) by (apply Zdigits2_lt; unfold Q in Hsmall; lia).
    assert (He1' : e1 = -1074) by (unfold e1 in *; lia).
    apply (dyadic_ltb_scaled _ _ _ _ (2 * e)); [lia|lia|].
    rewrite Z.sub_diag. change (2 ^ 0) with 1.
    replace (-1074 - 2 * e) with (e1 - (e + e)) by lia. fold Q. lia.
  - destruct (Z.leb_spec e3 (emax - prec)) as [Hle|Hgt].
    + cbn [square_within_ulp]. fold N. apply andb_true_intro. split.
      * apply (dyadic_ltb_scaled _ _ _ _ (2 * e)); [lia|lia|].
        rewrite Z.sub_diag. change (2 ^ 0) with 1.
        replace (e3 - 2 * e) with (e3 - (e + e)) by lia.
        set (P := 2 ^ (e3 - (e + e))) in *. nia.
      * apply (dyadic_ltb_scaled _ _ _ _ (2 * e)); [lia|lia|].
        rewrite Z.sub_diag. change (2 ^ 0) with 1.
        replace (e3 - 2 * e) with (e3 - (e + e)) by lia.
        set (P := 2 ^ (e3 - (e + e))) in *. nia.
    + (* overflow *)
      cbn [square_within_ulp]. fold N. unfold emax, prec in Hgt.
      rewrite fexp_64 in Hcan. cbn [Zdigits2] in Hcan.
      assert (Hdp : Zdigits2 (Z.pos p) = 53) by (cbn [Zdigits2]; lia).
      pose proof (Zdigits2_pow (Z.pos p) ltac:(lia)) as Hp52. rewrite Hdp in Hp52.
      change (2 ^ (53 - 1)) with 4503599627370496 in Hp52.
      assert (He1' : e1 = Zdigits2 N + (e + e) - 53) by (unfold e1 in *; lia).
      assert (Hda' : Zdigits2 (N / Q) = 53) by lia.
      pose proof (Zdigits2_pow (N / Q) ltac:(destruct (N / Q); cbn in Hda'; lia)) as Ha52.
      pose proof (Zdigits2_bound (N / Q) ltac:(apply Z.div_pos; lia)) as Ha53.
      rewrite Hda' in Ha52, Ha53.
      change (2 ^ (53 - 1)) with 4503599627370496 in Ha52.
      change (2 ^ 53) with 9007199254740992 in Ha53.
      change (2 ^ 53 - 1) with 9007199254740991.
      (* N exceeds (2^53 - 1) * 2^(971 - (e + e)) *)
      assert (Hbig : 9007199254740991 * 2 ^ (971 - Z.min 971 (2 * e))
                     < N * 2 ^ (2 * e - Z.min 971 (2 * e))).
      { destruct (Z_le_gt_dec (2 * e) 971) as [Hsmall|Hlarge].
        - replace (Z.min 971 (2 * e)) with (2 * e) by lia.
          rewrite Z.sub_diag. change (2 ^ 0) with 1. rewrite Z.mul_1_r.
          replace (971 - 2 * e) with (971 - (e + e)) by lia.
          destruct (Z_le_gt_dec 972 e1) as [Hi|Hii].
          + assert (HQ2 : 2 * 2 ^ (971 - (e + e)) <= Q).
            { unfold Q. rewrite <- Z.pow_succ_r by lia. apply Z.pow_le_mono_r; lia. }
            assert (0 < 2 ^ (971 - (e + e))) by (apply Z.pow_pos_nonneg; lia).
            nia.
          + assert (He971 : e1 = 971) by lia.
            assert (He3' : e3 - e1 = 1) by lia. rewrite He3' in *.
            change (2 ^ 1) with 2 in *.
            assert (HQeq : Q = 2 ^ (971 - (e + e))) by (unfold Q; f_equal; lia).
            rewrite <- HQeq.
            assert (Hne : N mod Q ≠ 0) by (intros H0; specialize (Hexact H0); lia).
            nia.
        - replace (Z.min 971 (2 * e)) with 971 by lia.
          rewrite Z.sub_diag. change (2 ^ 0) with 1. rewrite Z.mul_1_r.
          assert (Hp1 : 2 ^ 1 <= 2 ^ (2 * e - 971)) by (apply Z.pow_le_mono_r; lia).
          change (2 ^ 1) with 2 in Hp1.
          assert (HN52 : 4503599627370496 <= N).
          { assert (N / Q * 1 <= N / Q * Q) by (apply Z.mul_le_mono_nonneg_l; lia).
            rewrite (Z.mul_comm Q) in Hdm. lia. }
          assert (4503599627370496 * 2 <= N * 2 ^ (2 * e - 971))
            by (apply Z.mul_le_mono_nonneg; lia).
          lia. }
      unfold dyadic_ltb. apply Z.ltb_lt. exact Hbig.
Qed.

(** ** The accuracy of the library and of the mean *)

Lemma square_within_ulp_unit m e y :
  valid_binary y = true → e <= 0 → Z.pos m <= 2 ^ (- e) →
  square_within_ulp m e y = true → unit_interval y.
Proof.
  intros Hv He Hm.
  assert (Hp : 0 < 2 ^ (- e)) by (apply Z.pow_pos_nonneg; lia).
  assert (HN : Z.pos m * Z.pos m <= 2 ^ (- (2 * e))).
  { replace (- (2 * e)) with (- e + - e) by lia. rewrite Z.pow_add_r by lia. nia. }
  destruct y as [[]|[]| |[] my ey]; cbn [square_within_ulp unit_interval];
    intros H; try discriminate H; try exact I.
  - (* no overflow *)
    apply (dyadic_ltb_scaled _ _ _ _ (2 * e)) in H; [|lia..].
    rewrite Z.sub_diag in H. change (2 ^ 0) with 1 in H. rewrite Z.mul_1_r in H.
    replace (971 - 2 * e) with (971 + - (2 * e)) in H by lia.
    rewrite Z.pow_add_r in H by lia.
    assert (0 < 2 ^ (- (2 * e))) by (apply Z.pow_pos_nonneg; lia).
    exfalso. change (2 ^ 53 - 1) with 9007199254740991 in H.
    assert (H971 : 1 <= 2 ^ 971) by (change 1 with (2 ^ 0) at 1; apply Z.pow_le_mono_r; lia).
    nia.
  - apply andb_prop in H as [H _]. apply valid_finite in Hv.
    set (c := Z.min ey (2 * e)).
    apply (dyadic_ltb_scaled _ _ _ _ c) in H; [|unfold c; lia..].
    assert (HX : 0 < 2 ^ (ey - c)) by (apply Z.pow_pos_nonneg; unfold c; lia).
    assert (HY : 0 < 2 ^ (2 * e - c)) by (apply Z.pow_pos_nonneg; unfold c; lia).
    assert (Hc : 2 ^ (- (2 * e)) * 2 ^ (2 * e - c) = 2 ^ (- c)).
    { rewrite <- Z.pow_add_r by (unfold c; lia). f_equal. lia. }
    assert (Hlt : (Z.pos my - 1) * 2 ^ (ey - c) < 2 ^ (- c)).
    { rewrite <- Hc. eapply Z.lt_le_trans; [exact H|].
      apply Z.mul_le_mono_nonneg_r; lia. }
    destruct (Z_le_gt_dec ey 0) as [Hey|Hey].
    + split; [assumption|].
      assert (Hc2 : 2 ^ (- c) = 2 ^ (- ey) * 2 ^ (ey - c)).
      { rewrite <- Z.pow_add_r by (unfold c; lia). f_equal. lia. }
      rewrite Hc2 in Hlt. apply Z.mul_lt_mono_pos_r in Hlt; [lia|assumption].
    + exfalso.
      assert (Hs : Z.pos (Pos.size my) = 53) by lia.
      pose proof (size_lower my) as Hl. rewrite Hs in Hl.
      change (2 ^ 53) with 9007199254740992 in Hl.
      assert (Hc3 : 2 * 2 ^ (- c) <= 2 ^ (ey - c)).
      { rewrite <- Z.pow_succ_r by (unfold c; lia). apply Z.pow_le_mono_r; unfold c; lia. }
      assert (0 < 2 ^ (- c)) by (apply Z.pow_pos_nonneg; unfold c; lia).
      assert (1 * 2 ^ (ey - c) <= (Z.pos my - 1) * 2 ^ (ey - c))
        by (apply Z.mul_le_mono_nonneg_r; lia).
      lia.
Qed.

Lemma Zdigits2_mul_pow2 m n : 0 < m → 0 <= n → Zdigits2 (m * 2 ^ n) = Zdigits2 m + n.
Proof.
  intros Hm Hn. pose proof (Zdigits2_bound m ltac:(lia)) as Hb.
  pose proof (Zdigits2_pow m Hm) as Hl.
  assert (Hd : 1 <= Zdigits2 m).
  { pose proof (Zdigits2_nonneg m). destruct (Z.eq_dec (Zdigits2 m) 0) as [H0|]; [|lia].
    apply Zdigits2_zero in H0; lia. }
  assert (Hp : 0 < 2 ^ n) by (apply Z.pow_pos_nonneg; lia).
  apply Zdigits2_unique; [|nia].
  replace (Zdigits2 m + n - 1) with (Zdigits2 m - 1 + n) by lia.
  rewrite !Z.pow_add_r by lia. split.
  - apply Z.mul_le_mono_nonneg_r; lia.
  - apply Z.mul_lt_mono_pos_r; lia.
Qed.

Lemma div_eucl_div_mod a b : Z.div_eucl a b = ((a / b)%Z, (a mod b)%Z).
Proof. unfold Z.div, Z.modulo. destruct (Z.div_eucl a b). reflexivity. Qed.

(** An integer of [1, 2^53) as a binary64 number has a full mantissa. *)
Lemma integer_mantissa z m e :
  0 < z → valid_binary (S754_finite false m e) = true →
  e <= 0 → Z.pos m = z * 2 ^ (- e) →
  Z.pos (Pos.size m) = 53 ∧ -52 <= e.
Proof.
  intros Hz Hv He Hm. apply valid_finite in Hv.
  pose proof (size_upper m) as Hu. pose proof (size_lower m) as Hl.
  assert (Hp : 0 < 2 ^ (- e)) by (apply Z.pow_pos_nonneg; lia).
  assert (Hge : 2 ^ (- e) <= Z.pos m) by nia.
  assert (Hlt : 2 ^ (- e) < 2 ^ Z.pos (Pos.size m)) by lia.
  apply Z.pow_lt_mono_r_iff in Hlt; lia.
Qed.

Lemma SFdiv_mean k T mk ek mT eT :
  0 < k <= T →
  valid_binary (S754_finite false mk ek) = true →
  valid_binary (S754_finite false mT eT) = true →
  ek <= 0 → eT <= 0 → Z.pos mk = k * 2 ^ (- ek) → Z.pos mT = T * 2 ^ (- eT) →
  let f := SFdiv prec emax (S754_finite false mk ek) (S754_finite false mT eT) in
  within_half_ulp f k T
  ∧ ∀ s mg eg, valid_binary (S754_finite s mg eg) = true →
      float_is_fraction (S754_finite s mg eg) k T → f = S754_finite s mg eg.
Proof.
  intros Hk Hvk HvT Hek HeT Hmk HmT f.
  destruct (integer_mantissa k mk ek ltac:(lia) Hvk Hek Hmk) as [Hsk Hek'].
  destruct (integer_mantissa T mT eT ltac:(lia) HvT HeT HmT) as [HsT HeT'].
  assert (Hpk : 0 < 2 ^ (- ek)) by (apply Z.pow_pos_nonneg; lia).
  assert (HpT : 0 < 2 ^ (- eT)) by (apply Z.pow_pos_nonneg; lia).
  assert (Hunit : unit_interval f).
  { apply SFdiv_unit; [assumption..|]. rewrite Hmk, HmT. nia. }
  pose proof (size_upper mk) as Huk. pose proof (size_lower mk) as Hlk.
  pose proof (size_upper mT) as HuT. pose proof (size_lower mT) as HlT.
  rewrite Hsk in Huk, Hlk. rewrite HsT in HuT, HlT.
  change (2 ^ 53) with 9007199254740992 in *.
  unfold f in *. clear f. revert Hunit.
  cbn [SFdiv xorb]. unfold SFdiv_core_binary. cbn [Zdigits2].
  rewrite (digits2_pos_size mk), (digits2_pos_size mT), Hsk, HsT, fexp_64.
  replace (Z.min (Z.max (53 + ek - (53 + eT) - 53) (-1074)) (ek - eT))
    with (ek - eT - 53) by lia.
  replace (ek - eT - (ek - eT - 53)) with 53 by lia.
  cbv beta iota zeta. rewrite div_eucl_div_mod, Z.shiftl_mul_pow2 by lia.
  rewrite new_location_of by lia.
  set (N := Z.pos mk * 2 ^ 53). set (D := Z.pos mT). set (e' := ek - eT - 53).
  assert (HD : 4503599627370496 <= D < 9007199254740992) by (unfold D; lia).
  assert (HN : 4503599627370496 * 2 ^ 53 <= N < 9007199254740992 * 2 ^ 53)
    by (unfold N; lia).
  assert (Hq : 2 ^ 52 <= N / D < 2 ^ 54).
  { split.
    - apply Z.div_le_lower_bound; [lia|]. change (2 ^ 52) with 4503599627370496.
      change (2 ^ 53) with 9007199254740992 in HN. nia.
    - apply Z.div_lt_upper_bound; [lia|]. change (2 ^ 54) with 18014398509481984.
      change (2 ^ 53) with 9007199254740992 in HN. nia. }
  assert (Hdq : 53 <= Zdigits2 (N / D) <= 54).
  { split.
    - apply (Zdigits2_lower _ 52); lia.
    - apply Zdigits2_lt; lia. }
  pose proof (binary_round_aux_spec false N D e' ltac:(lia) ltac:(lia)) as HT.
  cbv zeta in HT. rewrite !fexp_64 in HT.
  replace (Z.max e' (Z.max (Zdigits2 (N / D) + e' - 53) (-1074)))
    with (Zdigits2 (N / D) + e' - 53) in HT by (unfold e'; lia).
  set (e1 := Zdigits2 (N / D) + e' - 53) in *.
  set (Q := D * 2 ^ (e1 - e')) in *.
  assert (HQ : D <= Q <= 2 * D).
  { unfold Q. assert (Hc : e1 - e' = 0 ∨ e1 - e' = 1) by (unfold e1; lia).
    destruct Hc as [-> | ->]; [change (2 ^ 0) with 1|change (2 ^ 1) with 2]; lia. }
  destruct HT as (m2 & m3 & e3 & Hm2 & Herr & Hexact & Hm3 & Hval & He3 & Hfit & Hcan & ->).
  specialize (Hcan ltac:(unfold e1, e' in *; lia)).
  assert (Ha : 1 <= N / Q).
  { apply Z.div_le_lower_bound; [lia|]. change (2 ^ 53) with 9007199254740992 in HN. lia. }
  intros Hunit. destruct m3 as [|p|p]; [exfalso; lia| |lia].
  destruct (Z.leb_spec e3 (emax - prec)) as [Hle|Hgt]; [|contradiction].
  cbn [unit_interval] in Hunit. destruct Hunit as [He30 Hp1].
  assert (HF : 0 <= e3 - eT - e') by (unfold e1, e' in *; lia).
  set (F := 2 ^ (e3 - eT - e')).
  assert (HFpos : 0 < F) by (apply Z.pow_pos_nonneg; lia).
  assert (H1 : m2 * Q = Z.pos p * T * F).
  { rewrite <- Hval. unfold Q, D, F. rewrite HmT.
    replace (e3 - eT - e') with ((e3 - e1) + (- eT) + (e1 - e')) by lia.
    rewrite !Z.pow_add_r by (unfold e1, e' in *; lia). ring. }
  assert (H2 : N = k * 2 ^ (- e3) * F).
  { unfold N, F. rewrite Hmk, <- !Z.mul_assoc, <- !Z.pow_add_r by (unfold e'; lia).
    f_equal. f_equal. unfold e'. lia. }
  assert (H3 : Q <= T * F).
  { unfold Q, D, F. rewrite HmT, <- Z.mul_assoc, <- Z.pow_add_r by (unfold e1, e' in *; lia).
    apply Z.mul_le_mono_nonneg_l; [lia|]. apply Z.pow_le_mono_r; unfold e1, e' in *; lia. }
  split.
  - cbn [within_half_ulp cond_Zopp].
    replace (Z.max e3 0) with 0 by lia. replace (Z.max (- e3) 0) with (- e3) by lia.
    change (2 ^ 0) with 1. rewrite Z.mul_1_r, Z.mul_1_l.
    rewrite H1, H2, <- Z.mul_sub_distr_r, Z.abs_mul, (Z.abs_eq F) in Herr by lia.
    apply (Z.mul_le_mono_pos_r _ _ F); [assumption|]. lia.
  - intros s mg eg Hvg Hfrac.
    cbn [float_is_fraction] in Hfrac.
    assert (Hpe : 0 < 2 ^ Z.max eg 0) by (apply Z.pow_pos_nonneg; lia).
    assert (Hpe' : 0 < 2 ^ Z.max (- eg) 0) by (apply Z.pow_pos_nonneg; lia).
    destruct s; cbn [cond_Zopp] in Hfrac.
    { exfalso.
      assert (Z.neg mg * 2 ^ Z.max eg 0 * T < 0)
        by (apply Z.mul_neg_pos; [apply Z.mul_neg_pos|]; lia).
      assert (0 < k * 2 ^ Z.max (- eg) 0) by (apply Z.mul_pos_pos; lia).
      lia. }
    assert (Heg : eg <= 0).
    { destruct (Z_le_gt_dec eg 0) as [|Hgt']; [assumption|exfalso].
      replace (Z.max eg 0) with eg in * by lia.
      replace (Z.max (- eg) 0) with 0 in * by lia. change (2 ^ 0) with 1 in Hfrac.
      assert (H2e : 2 ^ 1 <= 2 ^ eg) by (apply Z.pow_le_mono_r; lia).
      change (2 ^ 1) with 2 in H2e.
      assert (1 * 2 <= Z.pos mg * 2 ^ eg) by (apply Z.mul_le_mono_nonneg; lia).
      assert (1 * 2 * T <= Z.pos mg * 2 ^ eg * T) by (apply Z.mul_le_mono_nonneg_r; lia).
      lia. }
    replace (Z.max eg 0) with 0 in * by lia.
    replace (Z.max (- eg) 0) with (- eg) in * by lia.
    change (2 ^ 0) with 1 in Hfrac. rewrite Z.mul_1_r in Hfrac.
    apply valid_finite in Hvg.
    pose proof (size_upper mg) as Hug.
    assert (Hmg : Z.pos mg < 9007199254740992).
    { assert (2 ^ Z.pos (Pos.size mg) <= 2 ^ 53) by (apply Z.pow_le_mono_r; lia).
      change (2 ^ 53) with 9007199254740992 in *. lia. }
    assert (Hee : e' <= eg).
    { destruct (Z_le_gt_dec e' eg) as [|Hlt]; [assumption|exfalso].
      assert (HA : 2 ^ (- ek) * 2 ^ (54 + eT) <= 2 ^ (- eg)).
      { rewrite <- Z.pow_add_r by lia. apply Z.pow_le_mono_r; unfold e' in *; lia. }
      assert (HXY : 2 ^ (54 + eT) * 2 ^ (- eT) = 18014398509481984).
      { rewrite <- Z.pow_add_r by lia. replace (54 + eT + - eT) with 54 by lia. reflexivity. }
      assert (HY : 0 < 2 ^ (54 + eT)) by (apply Z.pow_pos_nonneg; lia).
      assert (HB : Z.pos mk * 2 ^ (54 + eT) <= k * 2 ^ (- eg)).
      { rewrite Hmk, <- Z.mul_assoc. apply Z.mul_le_mono_nonneg_l; lia. }
      assert (HC : Z.pos mk * 2 ^ (54 + eT) * 2 ^ (- eT) <= k * 2 ^ (- eg) * 2 ^ (- eT))
        by (apply Z.mul_le_mono_nonneg_r; lia).
      rewrite <- Z.mul_assoc, HXY, <- Hfrac, <- Z.mul_assoc, <- HmT in HC.
      assert (Z.pos mg * Z.pos mT < 9007199254740992 * 9007199254740992)
        by (apply Z.mul_lt_mono_nonneg; lia).
      lia. }
    assert (HNQ : N = Z.pos mg * 2 ^ (eg - e') * D).
    { unfold N, D. rewrite Hmk, HmT.
      transitivity (Z.pos mg * T * (2 ^ (eg - e') * 2 ^ (- eT))); [|ring].
      rewrite Hfrac, <- !Z.mul_assoc, <- !Z.pow_add_r by (unfold e' in *; lia).
      f_equal. f_equal. unfold e'. lia. }
    assert (Hquot : N / D = Z.pos mg * 2 ^ (eg - e')) by (rewrite HNQ; apply Z.div_mul; lia).
    assert (Hdg : Zdigits2 (N / D) = Z.pos (Pos.size mg) + (eg - e')).
    { rewrite Hquot, Zdigits2_mul_pow2 by lia. cbn [Zdigits2].
      rewrite digits2_pos_size. reflexivity. }
    assert (He1g : e1 = eg) by (unfold e1, e' in *; lia).
    assert (HQg : N = Z.pos mg * Q).
    { rewrite HNQ. unfold Q. rewrite He1g. ring. }
    assert (Hmod : N mod Q = 0) by (rewrite HQg; apply Z.mod_mul; lia).
    assert (Hdiv : N / Q = Z.pos mg) by (rewrite HQg; apply Z.div_mul; lia).
    rewrite (Hexact Hmod), Hdiv in Hval.
    assert (He3g : e3 = e1).
    { destruct (Z.eq_dec e3 e1) as [|Hne]; [assumption|exfalso].
      assert (He3' : e3 - e1 = 1) by lia. rewrite He3' in Hval.
      assert (Hd2 : Zdigits2 (Z.pos p * 2 ^ 1) = Zdigits2 (Z.pos p) + 1)
        by (apply Zdigits2_mul_pow2; lia).
      rewrite Hval in Hd2. cbn [Zdigits2] in Hd2, Hcan.
      rewrite digits2_pos_size in Hd2. rewrite fexp_64 in Hcan. lia. }
    rewrite He3g, Z.sub_diag in Hval. change (2 ^ 0) with 1 in Hval.
    f_equal; lia.
Qed.

End Binary64.

(** * From the specification to the primitive floats *)

Lemma Prim2SF_minus_one : Prim2SF (-1)%float = SFopp SF_one.
Proof. vm_compute. reflexivity. Qed.

Lemma Prim2SF_infinity : Prim2SF infinity = S754_infinity false.
Proof. vm_compute. reflexivity. Qed.

Lemma float_unit_interval x :
  (0 <=? x)%float = true → (x <=? 1)%float = true → unit_interval (Prim2SF x).
Proof.
  rewrite !FloatAxioms.leb_spec, Prim2SF_zero, Prim2SF_one.
  apply SFleb_unit_interval, Prim2SF_valid.
Qed.

Lemma unit_interval_float x :
  unit_interval (Prim2SF x) → (0 <=? x)%float = true ∧ (x <=? 1)%float = true.
Proof.
  rewrite !FloatAxioms.leb_spec, Prim2SF_zero, Prim2SF_one.
  apply unit_interval_SFleb, Prim2SF_valid.
Qed.

Lemma float_unit_magnitude x :
  (-1 <=? x)%float = true → (x <=? 1)%float = true → unit_magnitude (Prim2SF x).
Proof.
  rewrite !FloatAxioms.leb_spec, Prim2SF_minus_one, Prim2SF_one.
  apply SFleb_unit_magnitude, Prim2SF_valid.
Qed.

Lemma SFcompare_refl f : f ≠ S754_nan → SFcompare f f = Some Eq.
Proof.
  destruct f as [[]|[]| |[] m e]; intros H; try reflexivity; try congruence;
    cbn [SFcompare]; rewrite Z.compare_refl, Pos.compare_cont_refl; reflexivity.
Qed.

Lemma is_nan_false x : Prim2SF x ≠ S754_nan → PrimFloat.is_nan x = false.
Proof.
  intros H. unfold PrimFloat.is_nan. rewrite FloatAxioms.eqb_spec.
  unfold SFeqb. rewrite SFcompare_refl by assumption. reflexivity.
Qed.


Lemma unit_magnitude_finite f : unit_magnitude f → SF_finite_or_zero f.
Proof. destruct f; cbn [unit_magnitude SF_finite_or_zero]; tauto. Qed.

Lemma SF_finite_not_nan f : SF_finite_or_zero f → f ≠ S754_nan.
Proof. destruct f; cbn [SF_finite_or_zero]; intros H; [discriminate|contradiction..|discriminate]. Qed.

Lemma is_infinity_false x : SF_finite_or_zero (Prim2SF x) → PrimFloat.is_infinity x = false.
Proof.
  unfold PrimFloat.is_infinity. rewrite FloatAxioms.eqb_spec, abs_spec, Prim2SF_infinity.
  destruct (Prim2SF x) as [s|s| |s m e]; cbn [SF_finite_or_zero]; intros H;
    try contradiction; reflexivity.
Qed.

(** ** The arithmetic of the simulator stays within the unit interval *)

Lemma mul_unit x y :
  unit_magnitude (Prim2SF x) → unit_magnitude (Prim2SF y) →
  unit_signed (xorb (sign_bit (Prim2SF x)) (sign_bit (Prim2SF y))) (Prim2SF (x * y)).
Proof. rewrite FloatAxioms.mul_spec. apply SFmul_unit. Qed.

(** The correctly rounded product satisfies the accuracy bound of the
    library. *)
Lemma mul_square_accurate x m e :
  Prim2SF x = S754_finite false m e →
  square_within_ulp m e (Prim2SF (x * x)) = true.
Proof.
  intros Hx. rewrite FloatAxioms.mul_spec, Hx.
  apply SFmul_square_within_ulp. rewrite <- Hx. apply Prim2SF_valid.
Qed.

(** A library whose [pow_2] is the correctly rounded product: one of the
    libraries that the accuracy bound admits, used for the concrete runs. *)
Lemma correctly_rounded : math_library.
Proof. exact (MathLibrary (λ x, (x * x)%float) mul_square_accurate). Defined.

(** A second library: it differs from the first at 0.6352, where it returns
    what glibc 2.36 returns for [pow(0.6352, 2.0)], one unit in the last
    place below the rounded product. *)
Lemma pow_2_observed_accurate x m e :
  Prim2SF x = S754_finite false m e →
  square_within_ulp m e
    (Prim2SF (if (x =? 0.6352)%float then 0x1.9d299c05af975p-2%float else (x * x)%float))
  = true.
Proof.
  intros Hx. destruct (x =? 0.6352)%float eqn:Heq; [|apply mul_square_accurate; exact Hx].
  rewrite FloatAxioms.eqb_spec, Hx in Heq.
  change (Prim2SF 0.6352) with (S754_finite false 5721372966611478 (-53)) in Heq.
  unfold SFeqb in Heq. cbn [SFcompare] in Heq.
  destruct (Z.compare_spec e (-53)) as [He|He|He]; try discriminate Heq.
  destruct (Pos.compare_cont Eq m 5721372966611478) eqn:Hc; try discriminate Heq.
  apply Pos.compare_eq in Hc. subst m e. vm_compute. reflexivity.
Qed.

Lemma observed_library : math_library.
Proof.
  exact (MathLibrary
           (λ x, if (x =? 0.6352)%float then 0x1.9d299c05af975p-2%float else (x * x)%float)
           pow_2_observed_accurate).
Defined.

(** The float power of a strength of the declared domain lies in the unit
    interval, whatever the library. *)
Lemma float_pow_2_unit libm cs :
  (-1 <=? cs)%float = true → (cs <=? 1)%float = true →
  unit_interval (Prim2SF (float_pow_2 libm cs)).
Proof.
  intros H0 H1. pose proof (float_unit_magnitude cs H0 H1) as Hcs.
  unfold float_pow_2.
  rewrite (is_nan_false cs) by (apply SF_finite_not_nan, unit_magnitude_finite; exact Hcs).
  rewrite (is_infinity_false cs) by (apply unit_magnitude_finite; exact Hcs).
  rewrite (FloatAxioms.eqb_spec cs 0), (FloatAxioms.ltb_spec cs 0), Prim2SF_zero.
  destruct (Prim2SF cs) as [s|s| |s m e] eqn:Hx; cbn [unit_magnitude] in Hcs;
    try contradiction.
  - unfold SFeqb. cbn [SFcompare]. rewrite Prim2SF_zero. exact I.
  - destruct Hcs as [He Hm].
    set (iv := if SFltb (S754_finite s m e) (S754_zero false) then (- cs)%float else cs).
    assert (Hiv : Prim2SF iv = S754_finite false m e).
    { unfold iv, SFltb. destruct s; cbn [SFcompare].
      - rewrite FloatAxioms.opp_spec, Hx. reflexivity.
      - exact Hx. }
    replace (SFeqb (S754_finite s m e) (S754_zero false)) with false
      by (unfold SFeqb; destruct s; reflexivity).
    destruct (iv =? 1)%float.
    + rewrite Prim2SF_one. unfold SF_one, unit_interval. split; [lia|].
      vm_compute. discriminate.
    + apply (square_within_ulp_unit m e); [apply Prim2SF_valid|assumption..|].
      apply pow_2_accuracy. exact Hiv.
Qed.


Lemma sub_one_unit x : unit_interval (Prim2SF x) → unit_interval (Prim2SF (1 - x)).
Proof. rewrite FloatAxioms.sub_spec, Prim2SF_one. apply SFsub_one_unit. Qed.

Lemma sqrt_unit x : unit_interval (Prim2SF x) → unit_interval (Prim2SF (PrimFloat.sqrt x)).
Proof. rewrite FloatAxioms.sqrt_spec. apply SFsqrt_unit. Qed.

Lemma add_not_nan x y :
  SF_finite_or_zero (Prim2SF x) → SF_finite_or_zero (Prim2SF y) →
  PrimFloat.is_nan (x + y) = false.
Proof.
  intros Hx Hy. apply is_nan_false. rewrite FloatAxioms.add_spec.
  apply SFadd_not_nan; assumption.
Qed.

Lemma ltb_zero_false x : (0 <=? x)%float = true → (x <? 0)%float = false.
Proof.
  rewrite FloatAxioms.leb_spec, FloatAxioms.ltb_spec, Prim2SF_zero.
  unfold SFleb, SFltb.
  destruct (Prim2SF x) as [s|[]| |[] m e]; cbn [SFcompare]; intros H;
    try discriminate H; reflexivity.
Qed.

Lemma unit_interval_not_negative f : unit_interval f → SFltb f (S754_zero false) = false.
Proof.
  unfold SFltb.
  destruct f as [s|[]| |[] m e]; cbn [unit_interval SFcompare]; intros H;
    try contradiction; reflexivity.
Qed.

(** A probability and its complement pass the checks of [np.random.choice]. *)
Lemma probabilities_valid p :
  (0 <=? p)%float = true → (p <=? 1)%float = true →
  PrimFloat.is_nan (p + (1 - p)) = false
  ∧ (p <? 0)%float = false ∧ (1 - p <? 0)%float = false.
Proof.
  intros H0 H1.
  pose proof (float_unit_interval p H0 H1) as Hp.
  pose proof (sub_one_unit p Hp) as Hq.
  split; [|split].
  - apply add_not_nan; apply unit_magnitude_finite, unit_interval_signed; assumption.
  - apply ltb_zero_false; assumption.
  - rewrite FloatAxioms.ltb_spec, Prim2SF_zero. apply unit_interval_not_negative; assumption.
Qed.


(** * Clipping, draws, counts and means *)

Lemma float_of_int_0 : float_of_int 0 = 0%float.
Proof. vm_compute. reflexivity. Qed.

Lemma float_of_int_1 : float_of_int 1 = 1%float.
Proof. vm_compute. reflexivity. Qed.

Lemma unit_magnitude_one : unit_magnitude (Prim2SF 1).
Proof. rewrite Prim2SF_one. unfold SF_one, unit_magnitude. split; [lia|]. vm_compute. discriminate. Qed.

Lemma unit_magnitude_minus_one : unit_magnitude (Prim2SF (-1)).
Proof.
  rewrite Prim2SF_minus_one. unfold SF_one, SFopp, unit_magnitude.
  split; [lia|]. vm_compute. discriminate.
Qed.

Lemma unit_magnitude_zero : unit_magnitude (Prim2SF 0).
Proof. rewrite Prim2SF_zero. exact I. Qed.

(** Within the declared domain of the correlation strength the blended
    signal is a number. *)
Lemma blended_signal_not_nan (libm : math_library) cs previous fresh :
  (-1 <=? cs)%float = true → (cs <=? 1)%float = true →
  fresh = 1%Z ∨ fresh = 0%Z →
  PrimFloat.is_nan (blended_signal libm cs previous fresh) = false.
Proof.
  intros H0 H1 Hf. unfold blended_signal.
  pose proof (float_unit_magnitude cs H0 H1) as Hcs.
  apply add_not_nan.
  - eapply unit_magnitude_finite, unit_signed_magnitude, mul_unit; [assumption|].
    destruct previous; [apply unit_magnitude_one|apply unit_magnitude_minus_one].
  - eapply unit_magnitude_finite, unit_signed_magnitude, mul_unit.
    + apply unit_interval_signed, sqrt_unit, sub_one_unit, float_pow_2_unit; assumption.
    + destruct Hf as [-> | ->].
      * rewrite float_of_int_1. apply unit_magnitude_one.
      * rewrite float_of_int_0. apply unit_magnitude_zero.
Qed.

Lemma ltb_leb x y : (x <? y)%float = true → (x <=? y)%float = true.
Proof.
  rewrite FloatAxioms.ltb_spec, FloatAxioms.leb_spec. unfold SFltb, SFleb.
  destruct (SFcompare (Prim2SF x) (Prim2SF y)) as [[]|]; intros H;
    try discriminate H; reflexivity.
Qed.


(** A clipped number is not below 0. *)
Lemma np_clip_lower x :
  PrimFloat.is_nan x = false → (0 <=? np_clip x 0 1)%float = true.
Proof.
  intros Hnan. unfold np_clip. rewrite Hnan. cbn [orb].
  destruct (0 <? x)%float eqn:Hpos.
  - rewrite Hnan. cbn [orb]. destruct (x <? 1)%float.
    + apply ltb_leb. assumption.
    + vm_compute. reflexivity.
  - vm_compute. reflexivity.
Qed.


(** With probability 0 for the value 1, every draw is 0. *)
Lemma draw_1_0_zero u : draw_1_0 (0 / (0 + (1 - 0)))%float u = 0%Z.
Proof.
  unfold draw_1_0.
  replace (0 / (0 + (1 - 0)))%float with 0%float by (vm_compute; reflexivity).
  rewrite ltb_zero_false; [reflexivity|].
  pose proof (sample_range u) as H. apply andb_prop in H as [H _]. exact H.
Qed.

Lemma draw_1_0_range cdf0 u : draw_1_0 cdf0 u = 1%Z ∨ draw_1_0 cdf0 u = 0%Z.
Proof. unfold draw_1_0. destruct (sample u <? cdf0)%float; [left|right]; reflexivity. Qed.

(** ** Counts and means *)

Lemma count_true_bounds row : (0 <= count_true row <= Z.of_nat (length row))%Z.
Proof.
  unfold count_true. split; [lia|].
  apply inj_le. apply length_filter.
Qed.

Lemma float_of_int_exact z :
  (0 < z < 2 ^ 53)%Z →
  ∃ m e, Prim2SF (float_of_int z) = S754_finite false m e
         ∧ (e <= 0)%Z ∧ (Z.pos m = z * 2 ^ (- e))%Z.
Proof.
  intros Hz. unfold float_of_int.
  replace (z <? 0)%Z with false by (symmetry; apply Z.ltb_ge; lia).
  rewrite of_uint63_spec, Uint63.of_Z_spec.
  rewrite Z.mod_small.
  - apply binary_normalize_exact. assumption.
  - split; [lia|]. apply Z.lt_trans with (2 ^ 53)%Z; [lia|]. reflexivity.
Qed.

(** The mean of a non-empty boolean array of fewer than 2^53 entries lies
    in the unit interval. *)
Lemma np_mean_unit a :
  (0 < Z.of_nat (length a) < 2 ^ 53)%Z → unit_interval (Prim2SF (np_mean a)).
Proof.
  intros Hlen. unfold np_mean. rewrite FloatAxioms.div_spec.
  pose proof (count_true_bounds a) as Hc.
  destruct (float_of_int_exact _ Hlen) as (m2 & e2 & -> & He2 & Hm2).
  destruct (Z.eq_dec (count_true a) 0%Z) as [->|Hne].
  - rewrite float_of_int_0, Prim2SF_zero. exact I.
  - destruct (float_of_int_exact (count_true a) ltac:(lia)) as (m1 & e1 & -> & He1 & Hm1).
    apply SFdiv_unit; [assumption..|].
    rewrite Hm1, Hm2.
    assert (Hp1 : (0 < 2 ^ (- e1))%Z) by (apply Z.pow_pos_nonneg; lia).
    assert (Hp2 : (0 < 2 ^ (- e2))%Z) by (apply Z.pow_pos_nonneg; lia).
    rewrite <- !Z.mul_assoc, (Z.mul_comm (2 ^ (- e2)) (2 ^ (- e1))).
    apply Z.mul_le_mono_nonneg_r; [|lia].
    apply Z.mul_nonneg_nonneg; lia.
Qed.

(** A positive number divided by itself is exactly 1. *)
Lemma SFdiv_self m e :
  SFdiv prec emax (S754_finite false m e) (S754_finite false m e) = SF_one.
Proof.
  cbn [SFdiv xorb]. unfold SFdiv_core_binary.
  rewrite !Z.sub_diag.
  change (Z.min (fexp prec emax 0) 0) with (-53)%Z.
  change (0 - -53)%Z with 53%Z. cbv beta iota zeta.
  rewrite div_eucl_div_mod, Z.shiftl_mul_pow2 by lia.
  rewrite (Z.mul_comm (Z.pos m)), Z.div_mul, Z.mod_mul by lia.
  rewrite new_location_zero. vm_compute. reflexivity.
Qed.

Lemma Prim2SF_inj x y : Prim2SF x = Prim2SF y → x = y.
Proof. intros H. rewrite <- (SF2Prim_Prim2SF x), <- (SF2Prim_Prim2SF y), H. reflexivity. Qed.

Lemma count_true_all a : Forall (λ b, b = true) a → count_true a = Z.of_nat (length a).
Proof.
  intros H. unfold count_true. f_equal. induction H as [|b a Hb _ IH]; [reflexivity|].
  subst b. rewrite filter_cons_True by reflexivity. cbn [length]. rewrite IH. reflexivity.
Qed.

(** The mean of an array whose entries are all true is exactly 1. *)
Lemma np_mean_all_true a :
  (0 < Z.of_nat (length a) < 2 ^ 53)%Z → Forall (λ b, b = true) a → np_mean a = 1%float.
Proof.
  intros Hlen Hall. unfold np_mean. rewrite (count_true_all a Hall).
  apply Prim2SF_inj. rewrite FloatAxioms.div_spec, Prim2SF_one.
  destruct (float_of_int_exact _ Hlen) as (m & e & -> & _ & _).
  apply SFdiv_self.
Qed.


(** The mean is the exact fraction count / length rounded to binary64: at
    most half a unit in the last place away from it, and equal to it
    whenever the fraction is a binary64 number. *)
Lemma np_mean_rounded a :
  (0 < Z.of_nat (length a) < 2 ^ 53)%Z →
  within_half_ulp (Prim2SF (np_mean a)) (count_true a) (Z.of_nat (length a))
  ∧ ∀ x : float,
      float_is_fraction (Prim2SF x) (count_true a) (Z.of_nat (length a)) →
      (np_mean a =? x)%float = true.
Proof.
  intros Hlen. pose proof (count_true_bounds a) as Hc. unfold np_mean.
  destruct (float_of_int_exact _ Hlen) as (mT & eT & HT & HeT & HmT).
  assert (HvT : valid_binary (S754_finite false mT eT) = true)
    by (rewrite <- HT; apply Prim2SF_valid).
  destruct (Z.eq_dec (count_true a) 0%Z) as [H0|Hne].
  - rewrite H0.
    assert (Hmean : Prim2SF (float_of_int 0 / float_of_int (Z.of_nat (length a)))
                    = S754_zero false).
    { rewrite FloatAxioms.div_spec, float_of_int_0, Prim2SF_zero, HT. reflexivity. }
    rewrite Hmean. split.
    + cbn [within_half_ulp]. change (Z.abs 0) with 0%Z. lia.
    + intros x Hx. rewrite FloatAxioms.eqb_spec, Hmean.
      destruct (Prim2SF x) as [s|s| |s m e]; cbn [float_is_fraction] in Hx;
        try contradiction; [reflexivity|exfalso].
      pose proof (Z.pow_pos_nonneg 2 (Z.max e 0) ltac:(lia) ltac:(lia)) as Hp.
      rewrite Z.mul_0_l in Hx.
      apply Z.mul_eq_0 in Hx as [Hx|Hx]; [|lia].
      apply Z.mul_eq_0 in Hx as [Hx|Hx]; [|lia].
      destruct s; discriminate Hx.
  - destruct (float_of_int_exact (count_true a) ltac:(lia)) as (mk & ek & Hk & Hek & Hmk).
    assert (Hvk : valid_binary (S754_finite false mk ek) = true)
      by (rewrite <- Hk; apply Prim2SF_valid).
    destruct (SFdiv_mean (count_true a) (Z.of_nat (length a)) mk ek mT eT
                ltac:(lia) Hvk HvT Hek HeT Hmk HmT) as [Hhalf Hexact].
    rewrite FloatAxioms.div_spec, Hk, HT. split; [exact Hhalf|].
    intros x Hx. rewrite FloatAxioms.eqb_spec, FloatAxioms.div_spec, Hk, HT.
    destruct (Prim2SF x) as [s|s| |s mg eg] eqn:Hpx; cbn [float_is_fraction] in Hx;
      try contradiction.
    unfold SF64div. rewrite (Hexact s mg eg); [|rewrite <- Hpx; apply Prim2SF_valid|exact Hx].
    unfold SFeqb. rewrite SFcompare_refl by discriminate. reflexivity.
Qed.


(** * Running the simulator *)

Lemma map_fmap {A B} (f : A → B) l : map f l = f <$> l.
Proof. reflexivity. Qed.

Lemma bind_inr {A B} (m : M A) (k : A → M B) w a w' :
  m w = (inr a, w') → bind m k w = k a w'.
Proof. intros H. unfold bind. rewrite H. reflexivity. Qed.

Lemma bind_inl {A B} (m : M A) (k : A → M B) w e w' :
  m w = (inl e, w') → bind m k w = (inl e, w').
Proof. intros H. unfold bind. rewrite H. reflexivity. Qed.

Lemma float_of_int_bipolar b :
  float_of_int (2 * Z.b2z b - 1) = if b then 1%float else (-1)%float.
Proof. destruct b; vm_compute; reflexivity. Qed.

Lemma estimate_of_learner_outcome (libm : math_library) acc cs previous fresh :
  estimate_of acc (correlated_value cs (float_pow_2 libm cs) previous fresh)
  = learner_outcome libm acc cs previous fresh.
Proof.
  unfold estimate_of, learner_outcome, correlated_value, blended_signal.
  rewrite float_of_int_bipolar. reflexivity.
Qed.

Lemma py_square_no_overflow (libm : math_library) cs w :
  PrimFloat.is_infinity (float_pow_2 libm cs) && negb (PrimFloat.is_infinity cs) = false →
  py_square libm cs w = (inr (float_pow_2 libm cs), w).
Proof. intros H. unfold py_square. rewrite H. reflexivity. Qed.

Lemma square_no_overflow (libm : math_library) cs :
  (-1 <=? cs)%float = true → (cs <=? 1)%float = true →
  PrimFloat.is_infinity (float_pow_2 libm cs) && negb (PrimFloat.is_infinity cs) = false.
Proof.
  intros H0 H1. rewrite (is_infinity_false (float_pow_2 libm cs)); [reflexivity|].
  apply unit_magnitude_finite, unit_interval_signed, float_pow_2_unit; assumption.
Qed.

Lemma random_choice_valid size p w :
  (0 <= size)%Z → (0 <=? p)%float = true → (p <=? 1)%float = true →
  random_choice_1_0 size p (1 - p)%float w
  = (inr (map (λ t, draw_1_0 (p / (p + (1 - p)))%float (source w (drawn w + t)))
            (seq 0 (Z.to_nat size))),
     World (source w) (drawn w + Z.to_nat size) (allocated w)).
Proof.
  intros Hs H0 H1. unfold random_choice_1_0.
  destruct (probabilities_valid p H0 H1) as (-> & -> & ->).
  cbn [orb]. replace (size <? 0)%Z with false by (symmetry; apply Z.ltb_ge; exact Hs).
  f_equal. f_equal.
  replace (seq (drawn w) (Z.to_nat size)) with (seq (drawn w + 0) (Z.to_nat size))
    by (rewrite Nat.add_0_r; reflexivity).
  rewrite <- fmap_add_seq, !map_fmap, <- !list_fmap_compose.
  reflexivity.
Qed.

Lemma get_column_in_range arr i w :
  i < ncols arr →
  get_column arr i w = (inr (map (λ row, default false (row !! i)) (cells arr)), w).
Proof. intros H. unfold get_column. rewrite decide_True by assumption. reflexivity. Qed.

Lemma set_column_in_range arr i col w :
  i < ncols arr → length col = nrows arr →
  set_column arr i col w
  = (inr (NdArray (nrows arr) (ncols arr)
            (zip_with (λ row v, <[i:=v]> row) (cells arr) col)), w).
Proof.
  intros Hi Hl. unfold set_column. rewrite decide_True by assumption.
  rewrite decide_True by assumption. reflexivity.
Qed.

Section Grid.
Variable libm : math_library.
Variables (num_learners num_simulations : Z).
Variables (individual_accuracy correlation_strength : float).
Variable w0 : world.
Hypothesis Hsims : (0 <= num_simulations)%Z.
Hypothesis Hacc0 : (0 <=? individual_accuracy)%float = true.
Hypothesis Hacc1 : (individual_accuracy <=? 1)%float = true.
Hypothesis Hsquare :
  PrimFloat.is_infinity (float_pow_2 libm correlation_strength)
  && negb (PrimFloat.is_infinity correlation_strength) = false.

Local Abbreviation N := (Z.to_nat num_learners).
Local Abbreviation T := (Z.to_nat num_simulations).
Local Abbreviation filled_to :=
  (filled libm w0 num_learners num_simulations individual_accuracy correlation_strength).

Lemma first_estimates_filled a :
  0 < N →
  ∃ g, first_estimates num_simulations individual_accuracy
         (NdArray T N (replicate T (replicate N false)))
         (World (source w0) (drawn w0) a)
       = (inr g, World (source w0) (drawn w0 + T) a)
       ∧ filled_to 0 g.
Proof using Hsims Hacc0 Hacc1.
  intros HN. unfold first_estimates.
  rewrite (bind_inr _ _ _ _ _ (random_choice_valid _ _ _ Hsims Hacc0 Hacc1)).
  cbn [source drawn allocated].
  rewrite set_column_in_range; cbn [nrows ncols cells];
    [|assumption|rewrite !length_map, length_seq; reflexivity].
  eexists. split; [reflexivity|].
  split; [reflexivity|]. split; [reflexivity|]. cbn [cells]. split.
  { rewrite length_zip_with, length_replicate, !length_map, length_seq. lia. }
  intros t row Hrow.
  apply lookup_zip_with_Some in Hrow as (r0 & v & -> & Hr0 & Hv).
  apply lookup_replicate in Hr0 as [-> Ht].
  rewrite !map_fmap, !list_lookup_fmap, lookup_seq_lt in Hv by assumption.
  cbn in Hv. injection Hv as <-.
  split; [rewrite length_insert, length_replicate; reflexivity|].
  intros i Hi. replace i with 0 by lia.
  rewrite list_lookup_insert_eq by (rewrite length_replicate; assumption).
  unfold chained_outcome, fresh_draw. cbn [Nat.mul]. rewrite Nat.add_0_r. reflexivity.
Qed.

Lemma next_estimates_filled k g a :
  S k < N → filled_to k g →
  ∃ g', next_estimates libm num_simulations individual_accuracy correlation_strength (S k) g
          (World (source w0) (drawn w0 + S k * T) a)
        = (inr g', World (source w0) (drawn w0 + S (S k) * T) a)
        ∧ filled_to (S k) g'.
Proof using Hsims Hacc0 Hacc1 Hsquare.
  intros Hk (Hrows & Hcols & Hlen & Hcells). unfold next_estimates.
  replace (S k - 1) with k by lia.
  rewrite (bind_inr _ _ _ _ _ (get_column_in_range g k _ ltac:(lia))).
  rewrite (bind_inr _ _ _ _ _ (py_square_no_overflow _ _ _ Hsquare)).
  rewrite (bind_inr _ _ _ _ _ (random_choice_valid _ _ _ Hsims Hacc0 Hacc1)).
  cbn [source drawn allocated].
  rewrite set_column_in_range;
    [|lia|rewrite length_map, length_zip_with, !length_map, length_seq; lia].
  eexists. split.
  { f_equal. f_equal. lia. }
  split; [assumption|]. split; [assumption|]. cbn [cells]. split.
  { rewrite length_zip_with, length_map, length_zip_with, !length_map, length_seq. lia. }
  intros t row' Hrow'.
  apply lookup_zip_with_Some in Hrow' as (row & v & -> & Hrow & Hv).
  destruct (Hcells t row Hrow) as [Hlrow Hrow_k].
  rewrite map_fmap in Hv. apply list_lookup_fmap_Some in Hv as (c & -> & Hc).
  apply lookup_zip_with_Some in Hc as (b & f & -> & Hb & Hf).
  rewrite map_fmap in Hb. apply list_lookup_fmap_Some in Hb as (row0 & -> & Hrow0).
  rewrite Hrow in Hrow0. injection Hrow0 as <-.
  rewrite (Hrow_k k (le_n k)). cbn [default].
  rewrite map_fmap in Hf. apply list_lookup_fmap_Some in Hf as (t' & -> & Ht').
  apply lookup_seq in Ht' as [-> Ht]. cbn [Nat.add].
  split; [rewrite length_insert; assumption|].
  intros i Hi. destruct (decide (i = S k)) as [->|Hne].
  - rewrite list_lookup_insert_eq by lia.
    rewrite estimate_of_learner_outcome. reflexivity.
  - rewrite list_lookup_insert_ne by congruence. apply Hrow_k. lia.
Qed.
End Grid.

Section Run.
Variable libm : math_library.
Variables (num_learners num_simulations : Z).
Variables (individual_accuracy correlation_strength : float).
Variable w0 : world.
Hypothesis Hsims : (0 <= num_simulations)%Z.
Hypothesis Hacc0 : (0 <=? individual_accuracy)%float = true.
Hypothesis Hacc1 : (individual_accuracy <=? 1)%float = true.
Hypothesis Hsquare :
  PrimFloat.is_infinity (float_pow_2 libm correlation_strength)
  && negb (PrimFloat.is_infinity correlation_strength) = false.

Local Abbreviation N := (Z.to_nat num_learners).
Local Abbreviation T := (Z.to_nat num_simulations).
Local Abbreviation filled_to :=
  (filled libm w0 num_learners num_simulations individual_accuracy correlation_strength).

Lemma remaining_learners_filled m : ∀ k g a,
  k + m < N → filled_to k g →
  ∃ g', for_each (seq (S k) m)
          (next_estimates libm num_simulations individual_accuracy correlation_strength) g
          (World (source w0) (drawn w0 + S k * T) a)
        = (inr g', World (source w0) (drawn w0 + (S k + m) * T) a)
        ∧ filled_to (k + m) g'.
Proof using Hsims Hacc0 Hacc1 Hsquare.
  induction m as [|m IH]; intros k g a Hk Hg.
  - exists g. rewrite !Nat.add_0_r. split; [reflexivity|assumption].
  - cbn [seq for_each].
    destruct (next_estimates_filled libm num_learners num_simulations individual_accuracy
                correlation_strength w0 Hsims Hacc0 Hacc1 Hsquare k g a ltac:(lia) Hg)
      as (g1 & Hrun & Hg1).
    rewrite (bind_inr _ _ _ _ _ Hrun).
    destruct (IH (S k) g1 a ltac:(lia) Hg1) as (g2 & Hrun2 & Hg2).
    exists g2. rewrite Hrun2. split.
    + f_equal. f_equal. lia.
    + replace (k + S m) with (S k + m) by lia. assumption.
Qed.

Hypothesis Hlearners : (1 <= num_learners)%Z.

(** For parameters of the declared domain the grid is built, learner by
    learner, as the chain of every trial. *)
Lemma simulate_individual_estimates_filled :
  ∃ g, simulate_individual_estimates libm num_learners num_simulations
         individual_accuracy correlation_strength w0
       = (inr g, World (source w0) (drawn w0 + N * T)
                   ([num_simulations] :: [num_simulations; num_learners] :: allocated w0))
       ∧ filled_to (N - 1) g.
Proof using Hlearners Hsims Hacc0 Hacc1 Hsquare.
  unfold simulate_individual_estimates.
  assert (Hz2 : np_zeros2 num_simulations num_learners w0
                = (inr (NdArray T N (replicate T (replicate N false))),
                   World (source w0) (drawn w0)
                     ([num_simulations; num_learners] :: allocated w0))).
  { unfold np_zeros2.
    replace (num_simulations <? 0)%Z with false by (symmetry; apply Z.ltb_ge; lia).
    replace (num_learners <? 0)%Z with false by (symmetry; apply Z.ltb_ge; lia).
    reflexivity. }
  rewrite (bind_inr _ _ _ _ _ Hz2).
  assert (Hz1 : ∀ w, np_zeros1 num_simulations w
                = (inr (replicate T 0%Z),
                   World (source w) (drawn w) ([num_simulations] :: allocated w))).
  { intros w. unfold np_zeros1.
    replace (num_simulations <? 0)%Z with false by (symmetry; apply Z.ltb_ge; lia).
    reflexivity. }
  rewrite (bind_inr _ _ _ _ _ (Hz1 _)). cbn [source drawn allocated].
  destruct (first_estimates_filled libm num_learners num_simulations individual_accuracy
              correlation_strength w0 Hsims Hacc0 Hacc1
              ([num_simulations] :: [num_simulations; num_learners] :: allocated w0)
              ltac:(lia)) as (g0 & Hrun0 & Hg0).
  rewrite (bind_inr _ _ _ _ _ Hrun0).
  destruct (remaining_learners_filled (N - 1) 0 g0
              ([num_simulations] :: [num_simulations; num_learners] :: allocated w0)
              ltac:(lia) Hg0) as (g1 & Hrun1 & Hg1).
  exists g1. split; [|exact Hg1].
  replace (drawn w0 + T) with (drawn w0 + 1 * T) by lia.
  rewrite Hrun1. replace (1 + (N - 1)) with N by lia. reflexivity.
Qed.
End Run.


(** * The claims *)

(** The outcome of a learner can depend on the library: with the previous
    learner correct, a fresh draw of 1, individual_accuracy =
    0.137147693723494 and correlation_strength = -0.6352, the blended value
    is below the accuracy with the rounded product and equal to it with the
    value that glibc returns. *)
Lemma learner_depends_on_library :
  learner_outcome correctly_rounded 0.137147693723494 (-0.6352) true 1 = false
  ∧ learner_outcome observed_library 0.137147693723494 (-0.6352) true 1 = true.
Proof. split; vm_compute; reflexivity. Qed.

Lemma filled_lookup (libm : math_library) w n sims acc cs k g t :
  filled libm w n sims acc cs k g → t < Z.to_nat sims →
  ∃ row, cells g !! t = Some row ∧ length row = Z.to_nat n
         ∧ ∀ i, i ≤ k →
             row !! i
             = Some (chained_outcome libm acc cs (λ j, fresh_draw w sims acc j t) i).
Proof.
  intros (_ & _ & Hlen & Hcells) Ht.
  destruct (lookup_lt_is_Some_2 (cells g) t ltac:(lia)) as [row Hrow].
  exists row. split; [assumption|]. apply Hcells. assumption.
Qed.

Lemma simulate_collective_accuracy_of_grid (libm : math_library) n sims acc cs w g w' :
  simulate_individual_estimates libm n sims acc cs w = (inr g, w') →
  simulate_collective_accuracy libm n sims acc cs w
  = (inr (np_mean (majority_votes n g), majority_votes n g), w').
Proof. intros H. unfold simulate_collective_accuracy. rewrite (bind_inr _ _ _ _ _ H). reflexivity. Qed.

Lemma majority_votes_length n g : length (majority_votes n g) = length (cells g).
Proof. unfold majority_votes. apply length_map. Qed.

Lemma majority_votes_lookup n g t row :
  cells g !! t = Some row →
  majority_votes n g !! t = Some (n `div` 2 + 1 <=? count_true row)%Z.
Proof.
  intros H. unfold majority_votes. rewrite map_fmap, list_lookup_fmap, H. reflexivity.
Qed.

Section DeclaredDomain.
Variable libm : math_library.
Variables (num_learners num_simulations : Z).
Variables (individual_accuracy correlation_strength : float).
Variable w : world.
Hypothesis Hlearners : (1 <= num_learners)%Z.
Hypothesis Hsims : (1 <= num_simulations)%Z.
Hypothesis Hacc0 : (0 <=? individual_accuracy)%float = true.
Hypothesis Hacc1 : (individual_accuracy <=? 1)%float = true.
Hypothesis Hcs0 : (-1 <=? correlation_strength)%float = true.
Hypothesis Hcs1 : (correlation_strength <=? 1)%float = true.

Local Abbreviation N := (Z.to_nat num_learners).
Local Abbreviation T := (Z.to_nat num_simulations).

Lemma simulate_in_domain :
  ∃ g, simulate_individual_estimates libm num_learners num_simulations
         individual_accuracy correlation_strength w
       = (inr g, World (source w) (drawn w + N * T)
                   ([num_simulations] :: [num_simulations; num_learners] :: allocated w))
       ∧ filled libm w num_learners num_simulations
           individual_accuracy correlation_strength (N - 1) g.
Proof using Hlearners Hsims Hacc0 Hacc1 Hcs0 Hcs1.
  apply simulate_individual_estimates_filled; try assumption; [lia|].
  apply square_no_overflow; assumption.
Qed.

(** C2: every learner after the first is obtained, trial by trial, from
    the previous learner's outcome as a bipolar signal, blended with a
    fresh draw valued in {1, 0}, clipped to [0, 1] and compared with the
    individual accuracy; the square of the strength is Python's float
    power, with whatever library the platform has. *)
Theorem learner_built_from_previous :
  ∃ g w',
    simulate_individual_estimates libm num_learners num_simulations
      individual_accuracy correlation_strength w = (inr g, w')
    ∧ ∀ t i, t < T → 1 ≤ i ≤ N - 1 →
        let fresh := fresh_draw w num_simulations individual_accuracy i t in
        ∃ row previous,
          cells g !! t = Some row
          ∧ row !! (i - 1) = Some previous
          ∧ (fresh = 1%Z ∨ fresh = 0%Z)
          ∧ row !! i = Some (learner_outcome libm individual_accuracy correlation_strength
                               previous fresh).
Proof using Hlearners Hsims Hacc0 Hacc1 Hcs0 Hcs1.
  destruct simulate_in_domain as (g & Hrun & Hg).
  exists g. eexists. split; [exact Hrun|].
  intros t i Ht Hi fresh.
  destruct (filled_lookup _ _ _ _ _ _ _ _ t Hg Ht) as (row & Hrow & _ & Hcells).
  exists row. eexists. split; [exact Hrow|].
  split; [apply Hcells; lia|].
  split; [apply draw_1_0_range|].
  rewrite (Hcells i) by lia.
  destruct i as [|j]; [lia|]. cbn [chained_outcome].
  replace (S j - 1) with j by lia. reflexivity.
Qed.

(** C3: a trial's collective outcome is true exactly when the number of
    correct learners reaches floor(num_learners / 2) + 1; with an even
    number of learners a tie is not a majority. *)
Theorem majority_threshold :
  ∃ g mean outcomes w',
    simulate_individual_estimates libm num_learners num_simulations
      individual_accuracy correlation_strength w = (inr g, w')
    ∧ simulate_collective_accuracy libm num_learners num_simulations
        individual_accuracy correlation_strength w = (inr (mean, outcomes), w')
    ∧ length (cells g) = T
    ∧ ∀ t row, cells g !! t = Some row →
        length row = N
        ∧ ∃ b, outcomes !! t = Some b
               ∧ (b = true ↔ (num_learners `div` 2 + 1 <= count_true row)%Z)
               ∧ (Z.even num_learners = true →
                  count_true row = (num_learners `div` 2)%Z → b = false).
Proof using Hlearners Hsims Hacc0 Hacc1 Hcs0 Hcs1.
  destruct simulate_in_domain as (g & Hrun & Hg).
  exists g. do 3 eexists. split; [exact Hrun|].
  split; [apply simulate_collective_accuracy_of_grid; exact Hrun|].
  destruct Hg as (_ & _ & Hlen & Hcells). split; [exact Hlen|].
  intros t row Hrow. split; [apply (Hcells t row Hrow)|].
  eexists. split; [apply majority_votes_lookup; exact Hrow|]. split.
  - apply Z.leb_le.
  - intros _ Htie. apply Z.leb_gt. lia.
Qed.

(** C4, as the code behaves: the outcome sequence has exactly
    num_simulations entries, and the returned mean is the exact arithmetic
    mean of that sequence (the number of true outcomes over
    num_simulations) rounded to binary64: it is at most half a unit in the
    last place away from it, and it is that mean exactly whenever the mean
    is a binary64 number. *)
Theorem shape_and_mean :
  ∃ mean outcomes w',
    simulate_collective_accuracy libm num_learners num_simulations
      individual_accuracy correlation_strength w = (inr (mean, outcomes), w')
    ∧ Z.of_nat (length outcomes) = num_simulations
    ∧ ((num_simulations < 2 ^ 53)%Z →
       within_half_ulp (Prim2SF mean) (count_true outcomes) num_simulations
       ∧ ∀ x : float,
           float_is_fraction (Prim2SF x) (count_true outcomes) num_simulations →
           (mean =? x)%float = true).
Proof using Hlearners Hsims Hacc0 Hacc1 Hcs0 Hcs1.
  destruct simulate_in_domain as (g & Hrun & Hg).
  do 3 eexists. split; [apply simulate_collective_accuracy_of_grid; exact Hrun|].
  destruct Hg as (_ & _ & Hlen & _).
  assert (Hlen' : Z.of_nat (length (majority_votes num_learners g)) = num_simulations)
    by (rewrite majority_votes_length, Hlen; lia).
  split; [exact Hlen'|].
  intros Hbound. rewrite <- Hlen'. apply np_mean_rounded. lia.
Qed.

(** C9: the returned mean lies in the closed interval [0, 1]. *)
Theorem mean_in_unit_interval :
  (num_simulations < 2 ^ 53)%Z →
  ∃ mean outcomes w',
    simulate_collective_accuracy libm num_learners num_simulations
      individual_accuracy correlation_strength w = (inr (mean, outcomes), w')
    ∧ (0 <=? mean)%float = true ∧ (mean <=? 1)%float = true.
Proof using Hlearners Hsims Hacc0 Hacc1 Hcs0 Hcs1.
  intros Hbound.
  destruct simulate_in_domain as (g & Hrun & Hg).
  do 3 eexists. split; [apply simulate_collective_accuracy_of_grid; exact Hrun|].
  destruct Hg as (_ & _ & Hlen & _).
  apply unit_interval_float, np_mean_unit.
  rewrite majority_votes_length, Hlen. lia.
Qed.
End DeclaredDomain.

Lemma count_true_singleton b : count_true [b] = Z.b2z b.
Proof. destruct b; reflexivity. Qed.

Lemma singleton_row (row : list bool) b : length row = 1 → row !! 0 = Some b → row = [b].
Proof.
  destruct row as [|x [|y row]]; cbn; intros Hl H0; try discriminate Hl.
  injection H0 as ->. reflexivity.
Qed.

(** C7: with a single learner the loop over the remaining learners does not
    run (no draws beyond learner 0's are consumed) and the collective
    outcomes are, trial by trial, learner 0's raw draws. *)
Theorem single_learner (libm : math_library) (num_simulations : Z)
    (individual_accuracy correlation_strength : float) (w : world) :
  (1 <= num_simulations)%Z →
  (0 <=? individual_accuracy)%float = true → (individual_accuracy <=? 1)%float = true →
  (-1 <=? correlation_strength)%float = true → (correlation_strength <=? 1)%float = true →
  ∃ draws w1 mean,
    random_choice_1_0 num_simulations individual_accuracy (1 - individual_accuracy)%float w
    = (inr draws, w1)
    ∧ simulate_collective_accuracy libm 1 num_simulations
        individual_accuracy correlation_strength w
      = (inr (mean, map (λ d, negb (d =? 0)%Z) draws),
         World (source w) (drawn w1)
           ([num_simulations] :: [num_simulations; 1%Z] :: allocated w))
    ∧ drawn w1 = drawn w + Z.to_nat num_simulations.
Proof.
  intros Hsims Hacc0 Hacc1 Hcs0 Hcs1.
  do 3 eexists. split; [apply random_choice_valid; [lia|assumption..]|].
  cbn [drawn]. split; [|reflexivity].
  destruct (simulate_in_domain libm 1 num_simulations individual_accuracy correlation_strength w
              ltac:(lia) Hsims Hacc0 Hacc1 Hcs0 Hcs1) as (g & Hrun & Hg).
  rewrite (simulate_collective_accuracy_of_grid _ _ _ _ _ _ _ _ Hrun).
  change (Z.to_nat 1) with 1 in *. rewrite Nat.mul_1_l.
  assert (Hvotes : majority_votes 1 g
            = map (λ d, negb (d =? 0)%Z)
                (map (λ t, draw_1_0 (individual_accuracy
                                     / (individual_accuracy + (1 - individual_accuracy)))%float
                             (source w (drawn w + t)))
                   (seq 0 (Z.to_nat num_simulations)))).
  { apply list_eq. intros t.
    destruct (decide (t < Z.to_nat num_simulations)) as [Ht|Ht].
    - destruct (filled_lookup _ _ _ _ _ _ _ _ t Hg Ht) as (row & Hrow & Hl & Hcells).
      rewrite (majority_votes_lookup _ _ _ _ Hrow).
      rewrite (singleton_row row _ Hl (Hcells 0 (le_n 0))), count_true_singleton.
      rewrite !map_fmap, !list_lookup_fmap, lookup_seq_lt by assumption.
      cbn [fmap option_fmap option_map chained_outcome]. unfold fresh_draw.
      cbn [Nat.mul Nat.add]. rewrite Nat.add_0_r.
      destruct (negb _); reflexivity.
    - destruct Hg as (_ & _ & Hlen & _).
      rewrite !lookup_ge_None_2; [reflexivity|..].
      + rewrite !length_map, length_seq. lia.
      + rewrite majority_votes_length, Hlen. lia. }
  rewrite Hvotes. reflexivity.
Qed.

Lemma chained_zero_accuracy (libm : math_library) w sims cs t i :
  (-1 <=? cs)%float = true → (cs <=? 1)%float = true →
  chained_outcome libm 0 cs (λ j, fresh_draw w sims 0 j t) i = negb (i =? 0).
Proof.
  intros H0 H1. destruct i as [|j]; cbn [chained_outcome]; unfold fresh_draw.
  - rewrite draw_1_0_zero. reflexivity.
  - rewrite draw_1_0_zero. unfold learner_outcome. cbn [Nat.eqb negb].
    apply np_clip_lower, blended_signal_not_nan; [assumption..|right; reflexivity].
Qed.

Lemma zero_accuracy_row (row : list bool) n :
  length row = n → row !! 0 = Some false →
  (∀ i, 1 ≤ i < n → row !! i = Some true) →
  count_true row = (Z.of_nat n - 1)%Z.
Proof.
  destruct row as [|b row]; cbn [length]; intros Hl H0 Hrest.
  - discriminate H0.
  - injection H0 as ->.
    assert (Hall : Forall (λ b, b = true) row).
    { apply Forall_lookup. intros i b Hi.
      assert (Hlt : i < length row) by (eapply lookup_lt_Some; eassumption).
      specialize (Hrest (S i) ltac:(lia)).
      change ((false :: row) !! S i) with (row !! i) in Hrest.
      rewrite Hi in Hrest. injection Hrest as ->. reflexivity. }
    unfold count_true. rewrite filter_cons_False by discriminate.
    fold (count_true row). rewrite (count_true_all row Hall). lia.
Qed.

(** C10: with individual_accuracy = 0 learner 0 is incorrect in every trial
    and every later learner is correct in every trial; with three or more
    learners every collective outcome is true and the mean is 1. *)
Theorem zero_accuracy (libm : math_library) (num_learners num_simulations : Z)
    (correlation_strength : float) (w : world) :
  (2 <= num_learners)%Z → (1 <= num_simulations)%Z →
  (-1 <=? correlation_strength)%float = true → (correlation_strength <=? 1)%float = true →
  ∃ g mean outcomes w',
    simulate_individual_estimates libm num_learners num_simulations 0 correlation_strength w
    = (inr g, w')
    ∧ simulate_collective_accuracy libm num_learners num_simulations 0 correlation_strength w
      = (inr (mean, outcomes), w')
    ∧ (∀ t, t < Z.to_nat num_simulations →
         ∃ row, cells g !! t = Some row ∧ row !! 0 = Some false
                ∧ ∀ i, 1 ≤ i < Z.to_nat num_learners → row !! i = Some true)
    ∧ ((3 <= num_learners)%Z →
         length outcomes = Z.to_nat num_simulations
         ∧ Forall (λ b, b = true) outcomes
         ∧ ((num_simulations < 2 ^ 53)%Z → mean = 1%float)).
Proof.
  intros Hn Hsims Hcs0 Hcs1.
  destruct (simulate_in_domain libm num_learners num_simulations 0 correlation_strength w
              ltac:(lia) Hsims eq_refl eq_refl Hcs0 Hcs1) as (g & Hrun & Hg).
  exists g. do 3 eexists. split; [exact Hrun|].
  split; [apply simulate_collective_accuracy_of_grid; exact Hrun|].
  assert (Hrows : ∀ t, t < Z.to_nat num_simulations →
            ∃ row, cells g !! t = Some row ∧ length row = Z.to_nat num_learners
                   ∧ row !! 0 = Some false
                   ∧ ∀ i, 1 ≤ i < Z.to_nat num_learners → row !! i = Some true).
  { intros t Ht.
    destruct (filled_lookup _ _ _ _ _ _ _ _ t Hg Ht) as (row & Hrow & Hl & Hcells).
    exists row. split; [exact Hrow|]. split; [exact Hl|]. split.
    - rewrite (Hcells 0) by lia. rewrite chained_zero_accuracy by assumption. reflexivity.
    - intros i Hi. rewrite (Hcells i) by lia.
      rewrite chained_zero_accuracy by assumption.
      destruct i; [lia|reflexivity]. }
  split.
  { intros t Ht. destruct (Hrows t Ht) as (row & Hrow & _ & H0 & Hrest).
    exists row. auto. }
  intros Hn3.
  assert (Hlen : length (majority_votes num_learners g) = Z.to_nat num_simulations).
  { rewrite majority_votes_length. destruct Hg as (_ & _ & Hlen & _). exact Hlen. }
  assert (Hall : Forall (λ b, b = true) (majority_votes num_learners g)).
  { apply Forall_lookup. intros t b Hb.
    assert (Ht : t < Z.to_nat num_simulations)
      by (rewrite <- Hlen; eapply lookup_lt_Some; eassumption).
    destruct (Hrows t Ht) as (row & Hrow & Hl & H0 & Hrest).
    rewrite (majority_votes_lookup _ _ _ _ Hrow) in Hb. injection Hb as <-.
    rewrite (zero_accuracy_row row _ Hl H0 Hrest).
    apply Z.leb_le. pose proof (Z.mul_div_le num_learners 2 ltac:(lia)). lia. }
  split; [exact Hlen|]. split; [exact Hall|].
  intros Hbound. apply np_mean_all_true; [|exact Hall]. rewrite Hlen. lia.
Qed.

(** C8: the running average of [true, false, true, true], rounded to three
    decimals, is [1.0, 0.5, 0.667, 0.75]. *)
Theorem running_average_example :
  map (np_round 3) (cumulative_accuracies 4 [true; false; true; true])
  = [1%float; 0.5%float; 0.667%float; 0.75%float].
Proof. vm_compute. reflexivity. Qed.


Lemma np_zeros2_nonneg rows cols w :
  (0 <= rows)%Z → (0 <= cols)%Z →
  np_zeros2 rows cols w
  = (inr (NdArray (Z.to_nat rows) (Z.to_nat cols)
            (replicate (Z.to_nat rows) (replicate (Z.to_nat cols) false))),
     World (source w) (drawn w) ([rows; cols] :: allocated w)).
Proof.
  intros Hr Hc. unfold np_zeros2.
  replace (rows <? 0)%Z with false by (symmetry; apply Z.ltb_ge; lia).
  replace (cols <? 0)%Z with false by (symmetry; apply Z.ltb_ge; lia).
  reflexivity.
Qed.




(** C4 as stated fails: with one learner, three trials and the outcomes
    true, false, false the returned mean is the binary64 number nearest to
    1/3, which is not 1/3. *)
Lemma mean_not_exact : ¬ exact_mean_returned correctly_rounded 1 3 0.5 0 example_world.
Proof.
  intros (mean & outcomes & w' & Hrun & Hexact).
  vm_compute in Hrun. injection Hrun as <- <- _.
  vm_compute in Hexact. discriminate Hexact.
Qed.

(** C5 fails at individual_accuracy = 0: with correlation_strength = 1, learner
    0 is incorrect and learner 1 is correct. *)
Theorem perfect_correlation_zero_accuracy :
  simulate_individual_estimates correctly_rounded 2 1 0 1 example_world
  = (inr (NdArray 1 2 [[false; true]]), World example_source 2 [[1%Z]; [1%Z; 2%Z]]).
Proof. vm_compute. reflexivity. Qed.

(** C6 fails for the third learner: with correlation_strength = -1 learner 2
    agrees with learner 0. *)
Theorem negative_correlation_alternates :
  simulate_individual_estimates correctly_rounded 3 1 0.5 (-1) example_world
  = (inr (NdArray 1 3 [[true; false; true]]), World example_source 3 [[1%Z]; [1%Z; 3%Z]]).
Proof. vm_compute. reflexivity. Qed.


Lemma learner_built_from_previous_witness :
  ∃ g w',
    simulate_individual_estimates observed_library 3 2 0.137147693723494 (-0.6352)
      example_world = (inr g, w')
    ∧ ∀ t i, t < Z.to_nat 2 → 1 ≤ i ≤ Z.to_nat 3 - 1 →
        let fresh := fresh_draw example_world 2 0.137147693723494 i t in
        ∃ row previous,
          cells g !! t = Some row
          ∧ row !! (i - 1) = Some previous
          ∧ (fresh = 1%Z ∨ fresh = 0%Z)
          ∧ row !! i = Some (learner_outcome observed_library 0.137147693723494 (-0.6352)
                               previous fresh).
Proof.
  apply (learner_built_from_previous observed_library 3 2 0.137147693723494 (-0.6352)
           example_world); [lia|lia|reflexivity..].
Defined.

Lemma majority_threshold_witness :
  ∃ g mean outcomes w',
    simulate_individual_estimates correctly_rounded 4 2 0.5 0.5 example_world = (inr g, w')
    ∧ simulate_collective_accuracy correctly_rounded 4 2 0.5 0.5 example_world
      = (inr (mean, outcomes), w')
    ∧ length (cells g) = Z.to_nat 2
    ∧ ∀ t row, cells g !! t = Some row →
        length row = Z.to_nat 4
        ∧ ∃ b, outcomes !! t = Some b
               ∧ (b = true ↔ (4 `div` 2 + 1 <= count_true row)%Z)
               ∧ (Z.even 4 = true → count_true row = (4 `div` 2)%Z → b = false).
Proof.
  apply (majority_threshold correctly_rounded 4 2 0.5 0.5 example_world); [lia|lia|reflexivity..].
Defined.

Lemma shape_and_mean_witness :
  ∃ mean outcomes w',
    simulate_collective_accuracy correctly_rounded 3 2 0.5 0.5 example_world
    = (inr (mean, outcomes), w')
    ∧ Z.of_nat (length outcomes) = 2%Z
    ∧ within_half_ulp (Prim2SF mean) (count_true outcomes) 2
    ∧ ∀ x : float,
        float_is_fraction (Prim2SF x) (count_true outcomes) 2 → (mean =? x)%float = true.
Proof.
  destruct (shape_and_mean correctly_rounded 3 2 0.5 0.5 example_world
              ltac:(lia) ltac:(lia) eq_refl eq_refl eq_refl eq_refl)
    as (mean & outcomes & w' & Hrun & Hlen & Hmean).
  exists mean, outcomes, w'. split; [exact Hrun|]. split; [exact Hlen|].
  apply Hmean. reflexivity.
Defined.

Lemma mean_in_unit_interval_witness :
  ∃ mean outcomes w',
    simulate_collective_accuracy correctly_rounded 3 2 0.5 0.5 example_world
      = (inr (mean, outcomes), w')
    ∧ (0 <=? mean)%float = true ∧ (mean <=? 1)%float = true.
Proof.
  apply (mean_in_unit_interval correctly_rounded 3 2 0.5 0.5 example_world);
    [lia|lia|reflexivity..].
Defined.

Lemma single_learner_witness :
  ∃ draws w1 mean,
    random_choice_1_0 2 0.5 (1 - 0.5)%float example_world = (inr draws, w1)
    ∧ simulate_collective_accuracy correctly_rounded 1 2 0.5 0.5 example_world
      = (inr (mean, map (λ d, negb (d =? 0)%Z) draws),
         World (source example_world) (drawn w1)
           ([2%Z] :: [2%Z; 1%Z] :: allocated example_world))
    ∧ drawn w1 = drawn example_world + Z.to_nat 2.
Proof.
  apply (single_learner correctly_rounded 2 0.5 0.5 example_world); [lia|reflexivity..].
Defined.

Lemma zero_accuracy_witness :
  ∃ g mean outcomes w',
    simulate_individual_estimates correctly_rounded 3 2 0 0.5 example_world = (inr g, w')
    ∧ simulate_collective_accuracy correctly_rounded 3 2 0 0.5 example_world
      = (inr (mean, outcomes), w')
    ∧ (∀ t, t < Z.to_nat 2 →
         ∃ row, cells g !! t = Some row ∧ row !! 0 = Some false
                ∧ ∀ i, 1 ≤ i < Z.to_nat 3 → row !! i = Some true)
    ∧ length outcomes = Z.to_nat 2
    ∧ Forall (λ b, b = true) outcomes
    ∧ mean = 1%float.
Proof.
  destruct (zero_accuracy correctly_rounded 3 2 0.5 example_world
            ltac:(lia) ltac:(lia) eq_refl eq_refl)
    as (g & mean & outcomes & w' & Hgrid & Hrun & Hrows & Hmajority).
  destruct (Hmajority ltac:(lia)) as (Hlen & Hall & Hmean).
  exists g, mean, outcomes, w'.
  split; [exact Hgrid|]. split; [exact Hrun|]. split; [exact Hrows|].
  split; [exact Hlen|]. split; [exact Hall|]. apply Hmean. reflexivity.
Defined.

(** * Further properties of the simulator *)

Lemma leb_zero_false x : (0 <? x)%float = true → (x <=? 0)%float = false.
Proof.
  rewrite FloatAxioms.ltb_spec, FloatAxioms.leb_spec, Prim2SF_zero.
  unfold SFltb, SFleb.
  destruct (Prim2SF x) as [s|[]| |[] m e]; cbn [SFcompare]; intros H;
    try discriminate H; reflexivity.
Qed.

Lemma ltb_zero_leb x : (0 <? x)%float = true → (0 <=? x)%float = true.
Proof. apply ltb_leb. Qed.

(** ** The three strengths of the slider *)

(** With strength 1 and a positive accuracy a learner copies the previous one. *)
Lemma learner_outcome_copies (libm : math_library) acc previous fresh :
  (0 <? acc)%float = true → (acc <=? 1)%float = true →
  fresh = 1%Z ∨ fresh = 0%Z →
  learner_outcome libm acc 1 previous fresh = previous.
Proof.
  intros Hpos Hle Hf. unfold learner_outcome.
  destruct previous, Hf as [-> | ->].
  - replace (np_clip (blended_signal libm 1 true 1) 0 1) with 1%float by (vm_compute; reflexivity).
    exact Hle.
  - replace (np_clip (blended_signal libm 1 true 0) 0 1) with 1%float by (vm_compute; reflexivity).
    exact Hle.
  - replace (np_clip (blended_signal libm 1 false 1) 0 1) with 0%float by (vm_compute; reflexivity).
    apply leb_zero_false. exact Hpos.
  - replace (np_clip (blended_signal libm 1 false 0) 0 1) with 0%float by (vm_compute; reflexivity).
    apply leb_zero_false. exact Hpos.
Qed.

(** With strength -1 and a positive accuracy a learner negates the previous one. *)
Lemma learner_outcome_negates (libm : math_library) acc previous fresh :
  (0 <? acc)%float = true → (acc <=? 1)%float = true →
  fresh = 1%Z ∨ fresh = 0%Z →
  learner_outcome libm acc (-1) previous fresh = negb previous.
Proof.
  intros Hpos Hle Hf. unfold learner_outcome.
  destruct previous, Hf as [-> | ->]; cbn [negb].
  - replace (np_clip (blended_signal libm (-1) true 1) 0 1) with 0%float
      by (vm_compute; reflexivity).
    apply leb_zero_false. exact Hpos.
  - replace (np_clip (blended_signal libm (-1) true 0) 0 1) with 0%float
      by (vm_compute; reflexivity).
    apply leb_zero_false. exact Hpos.
  - replace (np_clip (blended_signal libm (-1) false 1) 0 1) with 1%float
      by (vm_compute; reflexivity).
    exact Hle.
  - replace (np_clip (blended_signal libm (-1) false 0) 0 1) with 1%float
      by (vm_compute; reflexivity).
    exact Hle.
Qed.

(** With strength 0 and a positive accuracy a learner is its own fresh draw. *)
Lemma learner_outcome_independent (libm : math_library) acc previous fresh :
  (0 <? acc)%float = true → (acc <=? 1)%float = true →
  fresh = 1%Z ∨ fresh = 0%Z →
  learner_outcome libm acc 0 previous fresh = negb (fresh =? 0)%Z.
Proof.
  intros Hpos Hle Hf. unfold learner_outcome.
  destruct previous, Hf as [-> | ->]; cbn [Z.eqb negb].
  - replace (np_clip (blended_signal libm 0 true 1) 0 1) with 1%float by (vm_compute; reflexivity).
    exact Hle.
  - replace (np_clip (blended_signal libm 0 true 0) 0 1) with 0%float by (vm_compute; reflexivity).
    apply leb_zero_false. exact Hpos.
  - replace (np_clip (blended_signal libm 0 false 1) 0 1) with 1%float by (vm_compute; reflexivity).
    exact Hle.
  - replace (np_clip (blended_signal libm 0 false 0) 0 1) with 0%float by (vm_compute; reflexivity).
    apply leb_zero_false. exact Hpos.
Qed.

Lemma fresh_draw_range w sims acc i t :
  fresh_draw w sims acc i t = 1%Z ∨ fresh_draw w sims acc i t = 0%Z.
Proof. apply draw_1_0_range. Qed.

Lemma chained_copies (libm : math_library) acc draw i :
  (0 <? acc)%float = true → (acc <=? 1)%float = true →
  (∀ j, draw j = 1%Z ∨ draw j = 0%Z) →
  chained_outcome libm acc 1 draw i = chained_outcome libm acc 1 draw 0.
Proof.
  intros Hpos Hle Hd. induction i as [|i IH]; [reflexivity|].
  cbn [chained_outcome] in *. rewrite learner_outcome_copies by auto. exact IH.
Qed.

Lemma chained_alternates (libm : math_library) acc draw i :
  (0 <? acc)%float = true → (acc <=? 1)%float = true →
  (∀ j, draw j = 1%Z ∨ draw j = 0%Z) →
  chained_outcome libm acc (-1) draw i = xorb (Nat.odd i) (chained_outcome libm acc (-1) draw 0).
Proof.
  intros Hpos Hle Hd. induction i as [|i IH]; [reflexivity|].
  change (chained_outcome libm acc (-1) draw (S i))
    with (learner_outcome libm acc (-1) (chained_outcome libm acc (-1) draw i) (draw (S i))).
  rewrite learner_outcome_negates, IH by auto.
  rewrite Nat.odd_succ, <- Nat.negb_odd.
  destruct (Nat.odd i), (chained_outcome libm acc (-1) draw 0); reflexivity.
Qed.

Lemma chained_independent (libm : math_library) acc draw i :
  (0 <? acc)%float = true → (acc <=? 1)%float = true →
  (∀ j, draw j = 1%Z ∨ draw j = 0%Z) →
  chained_outcome libm acc 0 draw i = negb (draw i =? 0)%Z.
Proof.
  intros Hpos Hle Hd. destruct i as [|i]; [reflexivity|].
  cbn [chained_outcome]. apply learner_outcome_independent; auto.
Qed.

(** ** Rows of the finished grid *)

Lemma filled_row (libm : math_library) w n sims acc cs g t row :
  (1 <= n)%Z →
  filled libm w n sims acc cs (Z.to_nat n - 1) g → cells g !! t = Some row →
  row = map (chained_outcome libm acc cs (λ j, fresh_draw w sims acc j t)) (seq 0 (Z.to_nat n)).
Proof.
  intros Hn (_ & _ & _ & Hcells) Hrow.
  destruct (Hcells t row Hrow) as [Hl Hlookup].
  apply list_eq. intros i. rewrite map_fmap, list_lookup_fmap.
  destruct (decide (i < Z.to_nat n)) as [Hi|Hi].
  - rewrite Hlookup by lia. rewrite lookup_seq_lt by assumption. reflexivity.
  - rewrite lookup_ge_None_2 by lia.
    rewrite (lookup_ge_None_2 (seq 0 (Z.to_nat n))) by (rewrite length_seq; lia).
    reflexivity.
Qed.

Lemma count_true_cons b row : count_true (b :: row) = (Z.b2z b + count_true row)%Z.
Proof.
  unfold count_true. destruct b.
  - rewrite filter_cons_True by reflexivity. cbn [length Z.b2z]. lia.
  - rewrite filter_cons_False by discriminate. cbn [Z.b2z]. lia.
Qed.

Lemma count_true_replicate n b :
  count_true (replicate n b) = if b then Z.of_nat n else 0%Z.
Proof.
  induction n as [|n IH]; [destruct b; reflexivity|].
  cbn [replicate]. rewrite count_true_cons, IH. destruct b; cbn [Z.b2z]; lia.
Qed.

Lemma count_true_alternating k : ∀ a b,
  count_true (map (λ i, xorb (Nat.odd i) b) (seq a (2 * k))) = Z.of_nat k.
Proof.
  induction k as [|k IH]; intros a b; [reflexivity|].
  replace (2 * S k) with (S (S (2 * k))) by lia. cbn [seq map].
  rewrite !count_true_cons, IH, Nat.odd_succ, <- Nat.negb_odd.
  destruct (Nat.odd a), b; cbn [negb xorb Z.b2z]; lia.
Qed.

Lemma count_true_alternating_odd k b :
  count_true (map (λ i, xorb (Nat.odd i) b) (seq 0 (S (2 * k)))) = (Z.b2z b + Z.of_nat k)%Z.
Proof.
  cbn [seq map]. rewrite count_true_cons, count_true_alternating.
  destruct b; reflexivity.
Qed.

(** The vote of an alternating row: the first learner's outcome when the
    number of learners is odd, never a majority when it is even. *)
Lemma alternating_vote n b :
  (1 <= n)%Z →
  (n `div` 2 + 1 <=? count_true (map (λ i, xorb (Nat.odd i) b) (seq 0 (Z.to_nat n))))%Z
  = Z.odd n && b.
Proof.
  intros Hn. destruct (Z.odd n) eqn:Hodd; cbn [andb].
  - apply Z.odd_spec in Hodd as [m ->].
    assert (Hdiv : ((2 * m + 1) `div` 2 = m)%Z) by (symmetry; apply Z.div_unique with 1%Z; lia).
    rewrite Hdiv.
    replace (Z.to_nat (2 * m + 1)) with (S (2 * Z.to_nat m)) by lia.
    rewrite count_true_alternating_odd. destruct b; cbn [Z.b2z].
    + apply Z.leb_le. lia.
    + apply Z.leb_gt. lia.
  - rewrite <- Z.negb_even in Hodd. apply negb_false_iff, Z.even_spec in Hodd as [m ->].
    assert (Hdiv : ((2 * m) `div` 2 = m)%Z) by (symmetry; apply Z.div_unique with 0%Z; lia).
    rewrite Hdiv.
    replace (Z.to_nat (2 * m)) with (2 * Z.to_nat m) by lia.
    rewrite count_true_alternating. apply Z.leb_gt. lia.
Qed.

Lemma constant_vote n b :
  (1 <= n)%Z → (n `div` 2 + 1 <=? count_true (replicate (Z.to_nat n) b))%Z = b.
Proof.
  intros Hn. rewrite count_true_replicate.
  pose proof (Z.mul_div_le n 2 ltac:(lia)).
  pose proof (Z.div_pos n 2 ltac:(lia) ltac:(lia)).
  destruct b; [apply Z.leb_le|apply Z.leb_gt]; lia.
Qed.

Lemma count_true_none a : Forall (λ b, b = false) a → count_true a = 0%Z.
Proof.
  intros H. induction H as [|b a Hb _ IH]; [reflexivity|].
  subst b. rewrite count_true_cons, IH. reflexivity.
Qed.

(** The mean of an array whose entries are all false is exactly 0. *)
Lemma np_mean_all_false a :
  (0 < Z.of_nat (length a) < 2 ^ 53)%Z → Forall (λ b, b = false) a → np_mean a = 0%float.
Proof.
  intros Hlen Hall. unfold np_mean. rewrite (count_true_none a Hall).
  apply Prim2SF_inj. rewrite FloatAxioms.div_spec, float_of_int_0, Prim2SF_zero.
  destruct (float_of_int_exact _ Hlen) as (m & e & -> & _ & _). reflexivity.
Qed.

Lemma alternating_rows (libm : math_library) w n sims acc g t row :
  (1 <= n)%Z → (0 <? acc)%float = true → (acc <=? 1)%float = true →
  filled libm w n sims acc (-1) (Z.to_nat n - 1) g → cells g !! t = Some row →
  row = map (λ i, xorb (Nat.odd i) (negb (fresh_draw w sims acc 0 t =? 0)%Z))
          (seq 0 (Z.to_nat n))
  ∧ majority_votes n g !! t
    = Some (Z.odd n && negb (fresh_draw w sims acc 0 t =? 0)%Z).
Proof.
  intros Hn Hpos Hle Hg Hrow.
  assert (Heq : row = map (λ i, xorb (Nat.odd i) (negb (fresh_draw w sims acc 0 t =? 0)%Z))
                        (seq 0 (Z.to_nat n))).
  { rewrite (filled_row _ _ _ _ _ _ _ _ _ Hn Hg Hrow).
    apply map_ext. intros i. apply chained_alternates; try assumption.
    intros; apply fresh_draw_range. }
  split; [exact Heq|].
  rewrite (majority_votes_lookup _ _ _ _ Hrow). f_equal.
  rewrite Heq. apply alternating_vote. exact Hn.
Qed.

Lemma alternating_even_votes (libm : math_library) w n sims acc g :
  (1 <= n)%Z → (0 <? acc)%float = true → (acc <=? 1)%float = true →
  filled libm w n sims acc (-1) (Z.to_nat n - 1) g → Z.even n = true →
  Forall (λ b, b = false) (majority_votes n g).
Proof.
  intros Hn Hpos Hle Hg Heven. apply Forall_lookup. intros t b Hb.
  assert (Ht : t < length (cells g))
    by (rewrite <- (majority_votes_length n); eapply lookup_lt_Some; eassumption).
  destruct (lookup_lt_is_Some_2 (cells g) t Ht) as [row Hrow].
  destruct (alternating_rows _ _ _ _ _ _ _ _ Hn Hpos Hle Hg Hrow) as [_ Hvote].
  rewrite Hvote in Hb. injection Hb as <-.
  rewrite <- Z.negb_even, Heven. reflexivity.
Qed.

Section Strengths.
Variable libm : math_library.
Variables (num_learners num_simulations : Z) (individual_accuracy : float) (w : world).
Hypothesis Hlearners : (1 <= num_learners)%Z.
Hypothesis Hsims : (1 <= num_simulations)%Z.
Hypothesis Hpos : (0 <? individual_accuracy)%float = true.
Hypothesis Hacc1 : (individual_accuracy <=? 1)%float = true.

(** X3: with correlation_strength = 1 and an individual accuracy in (0, 1],
  every learner of a trial has learner 0's outcome, and so has the
  majority vote of the trial. *)
Theorem perfect_correlation_copies :
∃ g mean outcomes w',
  simulate_individual_estimates libm num_learners num_simulations individual_accuracy 1 w
  = (inr g, w')
  ∧ simulate_collective_accuracy libm num_learners num_simulations individual_accuracy 1 w
    = (inr (mean, outcomes), w')
  ∧ length outcomes = Z.to_nat num_simulations
  ∧ ∀ t row, cells g !! t = Some row →
      ∃ first, row = replicate (Z.to_nat num_learners) first
               ∧ first = negb (fresh_draw w num_simulations individual_accuracy 0 t =? 0)%Z
               ∧ outcomes !! t = Some first.
Proof using Hlearners Hsims Hpos Hacc1.
destruct (simulate_in_domain libm num_learners num_simulations individual_accuracy 1 w
            Hlearners Hsims (ltb_leb _ _ Hpos) Hacc1 eq_refl eq_refl) as (g & Hrun & Hg).
exists g. do 3 eexists. split; [exact Hrun|].
split; [apply simulate_collective_accuracy_of_grid; exact Hrun|].
split; [rewrite majority_votes_length; apply Hg|].
intros t row Hrow.
assert (Heq : row = replicate (Z.to_nat num_learners)
                      (negb (fresh_draw w num_simulations individual_accuracy 0 t =? 0)%Z)).
{ rewrite (filled_row _ _ _ _ _ _ _ _ _ Hlearners Hg Hrow).
  apply list_eq. intros i. rewrite map_fmap, list_lookup_fmap.
  destruct (decide (i < Z.to_nat num_learners)) as [Hi|Hi].
  - rewrite lookup_seq_lt, lookup_replicate_2 by assumption.
    cbn [fmap option_fmap option_map Nat.add].
    rewrite chained_copies by (try assumption; intros; apply fresh_draw_range).
    reflexivity.
  - rewrite (lookup_ge_None_2 (seq _ _)) by (rewrite length_seq; lia).
    rewrite lookup_ge_None_2 by (rewrite length_replicate; lia). reflexivity. }
eexists. split; [exact Heq|]. split; [reflexivity|].
rewrite (majority_votes_lookup _ _ _ _ Hrow). f_equal.
rewrite Heq. apply constant_vote. exact Hlearners.
Qed.

(** X4: with correlation_strength = -1 and an individual accuracy in (0, 1],
  the learners of a trial alternate, starting from learner 0's outcome;
  the majority vote is learner 0's outcome for an odd number of learners
  and false for an even number, where the mean is therefore 0. *)
Theorem negative_correlation_votes :
∃ g mean outcomes w',
  simulate_individual_estimates libm num_learners num_simulations individual_accuracy (-1) w
  = (inr g, w')
  ∧ simulate_collective_accuracy libm num_learners num_simulations individual_accuracy (-1) w
    = (inr (mean, outcomes), w')
  ∧ length outcomes = Z.to_nat num_simulations
  ∧ (∀ t row, cells g !! t = Some row →
       ∃ first, row = map (λ i, xorb (Nat.odd i) first) (seq 0 (Z.to_nat num_learners))
                ∧ first = negb (fresh_draw w num_simulations individual_accuracy 0 t =? 0)%Z
                ∧ outcomes !! t = Some (Z.odd num_learners && first))
  ∧ (Z.even num_learners = true →
       Forall (λ b, b = false) outcomes
       ∧ ((num_simulations < 2 ^ 53)%Z → mean = 0%float)).
Proof using Hlearners Hsims Hpos Hacc1.
destruct (simulate_in_domain libm num_learners num_simulations individual_accuracy (-1) w
            Hlearners Hsims (ltb_leb _ _ Hpos) Hacc1 eq_refl eq_refl) as (g & Hrun & Hg).
exists g. do 3 eexists. split; [exact Hrun|].
split; [apply simulate_collective_accuracy_of_grid; exact Hrun|].
assert (Hlen : length (majority_votes num_learners g) = Z.to_nat num_simulations)
  by (rewrite majority_votes_length; apply Hg).
split; [exact Hlen|].
split.
{ intros t row Hrow.
  destruct (alternating_rows _ _ _ _ _ _ _ _ Hlearners Hpos Hacc1 Hg Hrow) as [Heq Hvote].
  eexists. split; [exact Heq|]. split; [reflexivity|exact Hvote]. }
intros Heven.
pose proof (alternating_even_votes _ _ _ _ _ _ Hlearners Hpos Hacc1 Hg Heven) as Hall.
split; [exact Hall|].
intros Hbound. apply np_mean_all_false; [|exact Hall]. rewrite Hlen. lia.
Qed.

(** X5: with correlation_strength = 0 and an individual accuracy in (0, 1],
  every learner's outcome is its own fresh draw: the learners are the
  independent draws of the generator. *)
Theorem zero_correlation_independent :
∃ g w',
  simulate_individual_estimates libm num_learners num_simulations individual_accuracy 0 w
  = (inr g, w')
  ∧ length (cells g) = Z.to_nat num_simulations
  ∧ ∀ t row, cells g !! t = Some row →
      row = map (λ i, negb (fresh_draw w num_simulations individual_accuracy i t =? 0)%Z)
              (seq 0 (Z.to_nat num_learners)).
Proof using Hlearners Hsims Hpos Hacc1.
destruct (simulate_in_domain libm num_learners num_simulations individual_accuracy 0 w
            Hlearners Hsims (ltb_leb _ _ Hpos) Hacc1 eq_refl eq_refl) as (g & Hrun & Hg).
exists g. eexists. split; [exact Hrun|]. split; [apply Hg|].
intros t row Hrow.
rewrite (filled_row _ _ _ _ _ _ _ _ _ Hlearners Hg Hrow).
apply map_ext. intros i.
apply (chained_independent libm individual_accuracy
         (λ j, fresh_draw w num_simulations individual_accuracy j t)); try assumption.
intros; apply fresh_draw_range.
Qed.
End Strengths.


(** ** What a call in the declared domain has drawn when it returns *)

(** X1: a call in the declared domain that returns has consumed exactly
    num_learners * num_simulations samples of the generator, from the
    position at which it was entered, and has called [np.zeros] twice: for
    the grid and then for the vector of collective outcomes. *)
Theorem samples_consumed (libm : math_library) (num_learners num_simulations : Z)
    (individual_accuracy correlation_strength : float) (w w' : world)
    (result : float * list bool) :
  (1 <= num_learners)%Z → (1 <= num_simulations)%Z →
  (0 <=? individual_accuracy)%float = true → (individual_accuracy <=? 1)%float = true →
  (-1 <=? correlation_strength)%float = true → (correlation_strength <=? 1)%float = true →
  simulate_collective_accuracy libm num_learners num_simulations
    individual_accuracy correlation_strength w = (inr result, w') →
  source w' = source w
  ∧ drawn w' = drawn w + Z.to_nat num_learners * Z.to_nat num_simulations
  ∧ allocated w' = [num_simulations] :: [num_simulations; num_learners] :: allocated w.
Proof.
  intros Hn Hs Ha0 Ha1 Hc0 Hc1.
  destruct (simulate_in_domain libm num_learners num_simulations individual_accuracy
              correlation_strength w Hn Hs Ha0 Ha1 Hc0 Hc1) as (g & Hrun & _).
  rewrite (simulate_collective_accuracy_of_grid _ _ _ _ _ _ _ _ Hrun).
  intros H. injection H as _ <-. cbn [source drawn allocated]. auto.
Qed.

(** X2: the grid has num_simulations rows of num_learners cells. *)
Theorem grid_shape (libm : math_library) (num_learners num_simulations : Z)
    (individual_accuracy correlation_strength : float) (w : world) :
  (1 <= num_learners)%Z → (1 <= num_simulations)%Z →
  (0 <=? individual_accuracy)%float = true → (individual_accuracy <=? 1)%float = true →
  (-1 <=? correlation_strength)%float = true → (correlation_strength <=? 1)%float = true →
  ∃ g w',
    simulate_individual_estimates libm num_learners num_simulations
      individual_accuracy correlation_strength w = (inr g, w')
    ∧ nrows g = Z.to_nat num_simulations ∧ ncols g = Z.to_nat num_learners
    ∧ length (cells g) = nrows g
    ∧ Forall (λ row, length row = ncols g) (cells g).
Proof.
  intros Hn Hs Ha0 Ha1 Hc0 Hc1.
  destruct (simulate_in_domain libm num_learners num_simulations individual_accuracy
              correlation_strength w Hn Hs Ha0 Ha1 Hc0 Hc1)
    as (g & Hrun & Hrows & Hcols & Hlen & Hcells).
  exists g. eexists. split; [exact Hrun|].
  split; [exact Hrows|]. split; [exact Hcols|]. split; [congruence|].
  apply Forall_lookup. intros t row Hrow. rewrite Hcols. apply (Hcells t row Hrow).
Qed.

(** ** Calls outside the declared domain *)

(** X8: a negative count is refused by the first [np.zeros], before anything
    is allocated or drawn. *)
Theorem negative_count_refused (libm : math_library) (num_learners num_simulations : Z)
    (individual_accuracy correlation_strength : float) (w : world) :
  (num_simulations < 0)%Z ∨ (num_learners < 0)%Z →
  simulate_collective_accuracy libm num_learners num_simulations
    individual_accuracy correlation_strength w = (inl ValueError, w).
Proof.
  intros H. unfold simulate_collective_accuracy, simulate_individual_estimates.
  apply bind_inl, bind_inl. unfold np_zeros2.
  replace ((num_simulations <? 0)%Z || (num_learners <? 0)%Z) with true; [reflexivity|].
  symmetry. apply orb_true_iff.
  destruct H as [H|H]; [left|right]; apply Z.ltb_lt; exact H.
Qed.







(** ** A strength whose float power exceeds 1 *)




(** ** No trials *)



(** ** The running average (wisdom_app.py, line 87) *)

Lemma cumsum_from_lookup a : ∀ acc k,
  k < length a → cumsum_from acc a !! k = Some (acc + count_true (take (S k) a))%Z.
Proof.
  induction a as [|b a IH]; intros acc k Hk; cbn [length] in Hk; [lia|].
  cbn [cumsum_from]. destruct k as [|k].
  - cbn [take]. rewrite count_true_cons. change (count_true []) with 0%Z.
    rewrite Z.add_0_r. reflexivity.
  - change ((_ :: cumsum_from (acc + Z.b2z b) a) !! S k)
      with (cumsum_from (acc + Z.b2z b) a !! k).
    rewrite IH by lia. change (take (S (S k)) (b :: a)) with (b :: take (S k) a).
    rewrite count_true_cons. f_equal. lia.
Qed.

Lemma cumsum_from_length a : ∀ acc, length (cumsum_from acc a) = length a.
Proof. induction a as [|b a IH]; intros acc; [reflexivity|]. cbn. rewrite IH. reflexivity. Qed.

Lemma np_arange_length lo hi : length (np_arange lo hi) = Z.to_nat (hi - lo).
Proof. unfold np_arange. rewrite length_map, length_seq. reflexivity. Qed.

Lemma np_arange_lookup lo hi k :
  k < Z.to_nat (hi - lo) → np_arange lo hi !! k = Some (lo + Z.of_nat k)%Z.
Proof.
  intros Hk. unfold np_arange. rewrite map_fmap, list_lookup_fmap, lookup_seq_lt by assumption.
  reflexivity.
Qed.

Lemma cumulative_accuracies_length (num_simulations : Z) (collective_accuracies : list bool) :
  Z.of_nat (length collective_accuracies) = num_simulations →
  length (cumulative_accuracies num_simulations collective_accuracies)
  = length collective_accuracies.
Proof.
  intros Hlen. unfold cumulative_accuracies, np_cumsum.
  rewrite length_zip_with, cumsum_from_length, np_arange_length. lia.
Qed.

Lemma cumulative_accuracies_lookup (num_simulations : Z) (collective_accuracies : list bool) k :
  Z.of_nat (length collective_accuracies) = num_simulations →
  k < length collective_accuracies →
  cumulative_accuracies num_simulations collective_accuracies !! k
  = Some (np_mean (take (S k) collective_accuracies)).
Proof.
  intros Hlen Hk. unfold cumulative_accuracies, np_cumsum. apply lookup_zip_with_Some.
  exists (count_true (take (S k) collective_accuracies)), (1 + Z.of_nat k)%Z.
  split; [|split].
  - unfold np_mean. rewrite length_take. do 3 f_equal. lia.
  - rewrite cumsum_from_lookup by assumption. reflexivity.
  - apply np_arange_lookup. lia.
Qed.

(** X13: every point of the running average is the mean of the outcomes up to
    and including that trial; there is one point per trial. *)
Theorem running_average_prefix_means (num_simulations : Z) (collective_accuracies : list bool) :
  Z.of_nat (length collective_accuracies) = num_simulations →
  length (cumulative_accuracies num_simulations collective_accuracies)
  = length collective_accuracies
  ∧ ∀ k, k < length collective_accuracies →
      cumulative_accuracies num_simulations collective_accuracies !! k
      = Some (np_mean (take (S k) collective_accuracies)).
Proof.
  intros Hlen. split.
  - apply cumulative_accuracies_length, Hlen.
  - intros k Hk. apply cumulative_accuracies_lookup; assumption.
Qed.

(** ** The page computed by [main] *)

Lemma slider_accuracy_nonneg acc :
  (0.1 <=? acc)%float = true → (0 <? acc)%float = true.
Proof.
  rewrite FloatAxioms.leb_spec, FloatAxioms.ltb_spec, Prim2SF_zero.
  replace (Prim2SF 0.1) with (S754_finite false 7205759403792794 (-56))
    by (vm_compute; reflexivity).
  unfold SFleb, SFltb.
  destruct (Prim2SF acc) as [s|[]| |[] m e]; cbn [SFcompare]; intros H;
    try discriminate H; reflexivity.
Qed.

Lemma independent_columns (num_simulations : Z) (individual_accuracy : float) m :
  (0 <= num_simulations)%Z →
  (0 <=? individual_accuracy)%float = true → (individual_accuracy <=? 1)%float = true →
  ∀ k g src d a,
    nrows g = Z.to_nat num_simulations → k + m ≤ ncols g →
    ∃ g', for_each (seq k m)
            (λ i individual_estimates,
               let* draws := random_choice_1_0 num_simulations
                               individual_accuracy (1 - individual_accuracy)%float in
               set_column individual_estimates i (map (λ d, negb (d =? 0)%Z) draws))
            g (World src d a)
          = (inr g', World src (d + m * Z.to_nat num_simulations) a)
          ∧ nrows g' = nrows g ∧ ncols g' = ncols g.
Proof.
  intros Hs Ha0 Ha1. induction m as [|m IH]; intros k g src d a Hrows Hk.
  - exists g. cbn [seq for_each Nat.mul]. rewrite Nat.add_0_r. auto.
  - cbn [seq for_each]. cbv beta.
    pose proof (random_choice_valid num_simulations individual_accuracy (World src d a)
                  Hs Ha0 Ha1) as Hdraw.
    cbn [source drawn allocated] in Hdraw.
    erewrite (bind_inr (bind _ _));
      [|rewrite (bind_inr _ _ _ _ _ Hdraw);
        apply set_column_in_range; [lia|rewrite !length_map, length_seq; auto]].
    edestruct (IH (S k)) as (g' & Hrun & Hr & Hc); [| |rewrite Hrun].
    + cbn [nrows]. exact Hrows.
    + cbn [ncols]. lia.
    + exists g'. split; [f_equal; f_equal; lia|]. cbn [nrows ncols] in Hr, Hc. auto.
Qed.

Lemma slider_values_domain n sims acc cs :
  slider_values n sims acc cs →
  (1 <= n)%Z ∧ (1 <= sims < 2 ^ 53)%Z
  ∧ (0 <? acc)%float = true ∧ (acc <=? 1)%float = true
  ∧ (-1 <=? cs)%float = true ∧ (cs <=? 1)%float = true.
Proof.
  intros (Hn & Hs & Ha0 & Ha1 & Hcs).
  split; [lia|]. split; [split; [lia|]|].
  { apply Z.le_lt_trans with 50000%Z; [lia|reflexivity]. }
  split; [apply slider_accuracy_nonneg; exact Ha0|]. split; [exact Ha1|].
  destruct Hcs as [-> | [-> | ->]]; split; reflexivity.
Qed.

Lemma independent_estimates_run n sims acc src d a :
  (0 <= n)%Z → (0 <= sims)%Z →
  (0 <=? acc)%float = true → (acc <=? 1)%float = true →
  ∃ g, independent_estimates n sims acc (World src d a)
       = (inr g, World src (d + Z.to_nat n * Z.to_nat sims) ([sims; n] :: a)).
Proof.
  intros Hn Hs Ha0 Ha1. unfold independent_estimates.
  rewrite (bind_inr _ _ _ _ _ (np_zeros2_nonneg sims n _ Hs Hn)).
  cbn [source drawn allocated].
  destruct (independent_columns sims acc (Z.to_nat n) Hs Ha0 Ha1 0
              (NdArray (Z.to_nat sims) (Z.to_nat n)
                 (replicate (Z.to_nat sims) (replicate (Z.to_nat n) false)))
              src d ([sims; n] :: a) eq_refl (le_n _)) as (g & Hrun & _).
  exists g. exact Hrun.
Qed.

Lemma main_of_result (libm : math_library) n sims acc cs w mean outcomes :
  (1 <= n)%Z → (1 <= sims)%Z →
  (0 <=? acc)%float = true → (acc <=? 1)%float = true →
  (-1 <=? cs)%float = true → (cs <=? 1)%float = true →
  simulate_collective_accuracy libm n sims acc cs w
  = (inr (mean, outcomes),
     World (source w) (drawn w + Z.to_nat n * Z.to_nat sims)
       ([sims] :: [sims; n] :: allocated w)) →
  main libm n sims acc cs w
  = (inr (Page (np_arange 1 (sims + 1)) (cumulative_accuracies sims outcomes)
            (mean * 100)%float (if (50 <=? mean * 100)%float then green else red)),
     World (source w) (drawn w + 2 * (Z.to_nat n * Z.to_nat sims))
       ([sims; n] :: [sims] :: [sims; n] :: allocated w)).
Proof.
  intros Hn Hs Ha0 Ha1 Hc0 Hc1 Hrun. unfold main.
  rewrite (bind_inr _ _ _ _ _ Hrun). cbn [fst snd].
  destruct (independent_estimates_run n sims acc (source w)
              (drawn w + Z.to_nat n * Z.to_nat sims)
              ([sims] :: [sims; n] :: allocated w) ltac:(lia) ltac:(lia) Ha0 Ha1)
    as (g & Hind).
  rewrite (bind_inr _ _ _ _ _ Hind). unfold ret. f_equal. f_equal. lia.
Qed.

(** X14: for every setting of the sliders the page is computed without an
    exception; the simulator and the second grid together consume
    2 * num_learners * num_simulations samples; the chart has one point per
    trial over x = 1 .. num_simulations, every point lies in [0, 1], and the
    last point is the mean that is shown as a percentage. *)
Theorem main_page (libm : math_library) (num_learners num_simulations : Z)
    (individual_accuracy correlation_strength : float) (w : world) :
  slider_values num_learners num_simulations individual_accuracy correlation_strength →
  ∃ mean outcomes w1 p w',
    simulate_collective_accuracy libm num_learners num_simulations
      individual_accuracy correlation_strength w = (inr (mean, outcomes), w1)
    ∧ main libm num_learners num_simulations individual_accuracy correlation_strength w
      = (inr p, w')
    ∧ drawn w' = drawn w + 2 * (Z.to_nat num_learners * Z.to_nat num_simulations)
    ∧ chart_x p = map Z.of_nat (seq 1 (Z.to_nat num_simulations))
    ∧ length (chart_y p) = Z.to_nat num_simulations
    ∧ Forall (λ y, (0 <=? y)%float = true ∧ (y <=? 1)%float = true) (chart_y p)
    ∧ chart_y p !! (Z.to_nat num_simulations - 1) = Some mean
    ∧ collective_accuracy_percentage p = (mean * 100)%float.
Proof.
  intros Hsl.
  destruct (slider_values_domain _ _ _ _ Hsl) as (Hn & [Hs Hbound] & Hpos & Ha1 & Hc0 & Hc1).
  pose proof (ltb_leb _ _ Hpos) as Ha0.
  destruct (simulate_in_domain libm num_learners num_simulations individual_accuracy
              correlation_strength w Hn Hs Ha0 Ha1 Hc0 Hc1) as (g & Hgrid & Hg).
  pose proof (simulate_collective_accuracy_of_grid _ _ _ _ _ _ _ _ Hgrid) as Hrun.
  set (outcomes := majority_votes num_learners g) in *.
  assert (Hlen : length outcomes = Z.to_nat num_simulations)
    by (unfold outcomes; rewrite majority_votes_length; apply Hg).
  assert (Hout : Z.of_nat (length outcomes) = num_simulations) by lia.
  pose proof (cumulative_accuracies_length num_simulations outcomes Hout) as Hclen.
  pose proof (λ k, cumulative_accuracies_lookup num_simulations outcomes k Hout) as Hpoints.
  do 5 eexists. split; [exact Hrun|].
  split; [apply (main_of_result _ _ _ _ _ _ _ _ Hn Hs Ha0 Ha1 Hc0 Hc1 Hrun)|].
  cbn [drawn chart_x chart_y collective_accuracy_percentage].
  split; [reflexivity|]. split.
  { unfold np_arange. replace (num_simulations + 1 - 1)%Z with num_simulations by lia.
    rewrite <- (fmap_add_seq 1 0), !map_fmap, <- list_fmap_compose.
    apply list_fmap_ext. intros _ k _. cbn. lia. }
  split; [congruence|]. split.
  { apply Forall_lookup. intros k y Hy.
    assert (Hk : k < length outcomes)
      by (rewrite <- Hclen; eapply lookup_lt_Some; eassumption).
    rewrite (Hpoints k Hk) in Hy. injection Hy as <-.
    apply unit_interval_float, np_mean_unit. rewrite length_take. lia. }
  split; [|reflexivity].
  rewrite Hpoints by lia.
  replace (S (Z.to_nat num_simulations - 1)) with (length outcomes) by lia.
  rewrite firstn_all. reflexivity.
Qed.


(** ** The page at strength -1 with an even number of learners *)

Lemma cumulative_all_false sims outcomes :
  Z.of_nat (length outcomes) = sims → (sims < 2 ^ 53)%Z →
  Forall (λ b, b = false) outcomes →
  Forall (λ y, y = 0%float) (cumulative_accuracies sims outcomes).
Proof.
  intros Hlen Hbound Hall.
  pose proof (cumulative_accuracies_length sims outcomes Hlen) as Hclen.
  pose proof (λ k, cumulative_accuracies_lookup sims outcomes k Hlen) as Hpoints.
  apply Forall_lookup. intros k y Hy.
  assert (Hk : k < length outcomes) by (rewrite <- Hclen; eapply lookup_lt_Some; eassumption).
  rewrite (Hpoints k Hk) in Hy. injection Hy as <-.
  apply np_mean_all_false; [rewrite length_take; lia|].
  apply Forall_take. exact Hall.
Qed.

(** X15: with the strength slider at -1 and an even number of learners (such as
    the default of 100) the page shows 0 percent, in red, and a flat chart
    at 0, whatever the accuracy slider and the random draws. *)
Theorem negative_slider_even_learners (libm : math_library) (num_learners num_simulations : Z)
    (individual_accuracy : float) (w : world) :
  slider_values num_learners num_simulations individual_accuracy (-1) →
  Z.even num_learners = true →
  ∃ p w',
    main libm num_learners num_simulations individual_accuracy (-1) w = (inr p, w')
    ∧ collective_accuracy_percentage p = 0%float
    ∧ percentage_colour p = red
    ∧ length (chart_y p) = Z.to_nat num_simulations
    ∧ Forall (λ y, y = 0%float) (chart_y p).
Proof.
  intros Hsl Heven.
  destruct (slider_values_domain _ _ _ _ Hsl) as (Hn & [Hs Hbound] & Hpos & Ha1 & Hc0 & Hc1).
  pose proof (ltb_leb _ _ Hpos) as Ha0.
  destruct (simulate_in_domain libm num_learners num_simulations individual_accuracy (-1) w
              Hn Hs Ha0 Ha1 Hc0 Hc1) as (g & Hgrid & Hg).
  pose proof (simulate_collective_accuracy_of_grid _ _ _ _ _ _ _ _ Hgrid) as Hrun.
  pose proof (alternating_even_votes _ _ _ _ _ _ Hn Hpos Ha1 Hg Heven) as Hall.
  assert (Hlen : length (majority_votes num_learners g) = Z.to_nat num_simulations)
    by (rewrite majority_votes_length; apply Hg).
  assert (Hmean : np_mean (majority_votes num_learners g) = 0%float)
    by (apply np_mean_all_false; [rewrite Hlen; lia|exact Hall]).
  rewrite Hmean in Hrun.
  do 2 eexists.
  split; [apply (main_of_result libm num_learners num_simulations individual_accuracy (-1)%float
                   w _ _ Hn Hs Ha0 Ha1 Hc0 Hc1 Hrun)|].
  cbn [collective_accuracy_percentage percentage_colour chart_y].
  split; [vm_compute; reflexivity|]. split; [vm_compute; reflexivity|]. split.
  - rewrite cumulative_accuracies_length by lia. congruence.
  - apply cumulative_all_false; [lia|exact Hbound|exact Hall].
Qed.

(** ** The result depends only on the samples the call consumes *)

Lemma chained_outcome_ext (libm : math_library) acc cs draw1 draw2 i :
  (∀ j, j ≤ i → draw1 j = draw2 j) →
  chained_outcome libm acc cs draw1 i = chained_outcome libm acc cs draw2 i.
Proof.
  induction i as [|i IH]; intros H; cbn [chained_outcome].
  - rewrite (H 0) by lia. reflexivity.
  - rewrite IH by (intros j Hj; apply H; lia). rewrite (H (S i)) by lia. reflexivity.
Qed.

(** X12: two generators that agree on the next num_learners * num_simulations
    samples give the same mean and the same outcomes. *)
Theorem same_samples_same_result (libm : math_library) (num_learners num_simulations : Z)
    (individual_accuracy correlation_strength : float) (w1 w2 : world) :
  (1 <= num_learners)%Z → (1 <= num_simulations)%Z →
  (0 <=? individual_accuracy)%float = true → (individual_accuracy <=? 1)%float = true →
  (-1 <=? correlation_strength)%float = true → (correlation_strength <=? 1)%float = true →
  (∀ k, k < Z.to_nat num_learners * Z.to_nat num_simulations →
        sample (source w1 (drawn w1 + k)) = sample (source w2 (drawn w2 + k))) →
  ∃ result w1' w2',
    simulate_collective_accuracy libm num_learners num_simulations
      individual_accuracy correlation_strength w1 = (inr result, w1')
    ∧ simulate_collective_accuracy libm num_learners num_simulations
        individual_accuracy correlation_strength w2 = (inr result, w2').
Proof.
  intros Hn Hs Ha0 Ha1 Hc0 Hc1 Hsame.
  destruct (simulate_in_domain libm num_learners num_simulations individual_accuracy
              correlation_strength w1 Hn Hs Ha0 Ha1 Hc0 Hc1) as (g1 & Hrun1 & Hg1).
  destruct (simulate_in_domain libm num_learners num_simulations individual_accuracy
              correlation_strength w2 Hn Hs Ha0 Ha1 Hc0 Hc1) as (g2 & Hrun2 & Hg2).
  assert (Hcells : cells g1 = cells g2).
  { apply list_eq. intros t.
    assert (Hl1 : length (cells g1) = Z.to_nat num_simulations) by apply Hg1.
    assert (Hl2 : length (cells g2) = Z.to_nat num_simulations) by apply Hg2.
    destruct (decide (t < Z.to_nat num_simulations)) as [Ht|Ht].
    - destruct (lookup_lt_is_Some_2 (cells g1) t ltac:(lia)) as [r1 Hr1].
      destruct (lookup_lt_is_Some_2 (cells g2) t ltac:(lia)) as [r2 Hr2].
      rewrite Hr1, Hr2. f_equal.
      rewrite (filled_row _ _ _ _ _ _ _ _ _ Hn Hg1 Hr1), (filled_row _ _ _ _ _ _ _ _ _ Hn Hg2 Hr2).
      apply map_ext_in. intros i Hi. apply in_seq in Hi.
      apply chained_outcome_ext. intros j Hj. unfold fresh_draw, draw_1_0.
      rewrite <- !Nat.add_assoc. rewrite Hsame; [reflexivity|]. nia.
    - rewrite !lookup_ge_None_2 by lia. reflexivity. }
  do 3 eexists.
  rewrite (simulate_collective_accuracy_of_grid _ _ _ _ _ _ _ _ Hrun1).
  rewrite (simulate_collective_accuracy_of_grid _ _ _ _ _ _ _ _ Hrun2).
  unfold majority_votes. rewrite Hcells. split; reflexivity.
Qed.

(** ** Learners that are always right *)

Lemma draw_1_0_one u : draw_1_0 (1 / (1 + (1 - 1)))%float u = 1%Z.
Proof.
  unfold draw_1_0.
  replace (1 / (1 + (1 - 1)))%float with 1%float by (vm_compute; reflexivity).
  pose proof (sample_range u) as H. apply andb_prop in H as [_ H]. rewrite H. reflexivity.
Qed.

(** X6: with individual_accuracy = 1 and correlation_strength 0 or 1 every
    learner is correct in every trial, every collective outcome is true and
    the mean is 1. *)
Theorem certain_learners (libm : math_library) (num_learners num_simulations : Z)
    (correlation_strength : float) (w : world) :
  (1 <= num_learners)%Z → (1 <= num_simulations)%Z →
  correlation_strength = 0%float ∨ correlation_strength = 1%float →
  ∃ g mean outcomes w',
    simulate_individual_estimates libm num_learners num_simulations 1 correlation_strength w
    = (inr g, w')
    ∧ simulate_collective_accuracy libm num_learners num_simulations 1 correlation_strength w
      = (inr (mean, outcomes), w')
    ∧ Forall (λ row, row = replicate (Z.to_nat num_learners) true) (cells g)
    ∧ outcomes = replicate (Z.to_nat num_simulations) true
    ∧ ((num_simulations < 2 ^ 53)%Z → mean = 1%float).
Proof.
  intros Hn Hs Hcs.
  assert (Hc : (-1 <=? correlation_strength)%float = true
               ∧ (correlation_strength <=? 1)%float = true)
    by (destruct Hcs as [-> | ->]; split; reflexivity).
  destruct Hc as [Hc0 Hc1].
  destruct (simulate_in_domain libm num_learners num_simulations 1 correlation_strength w
              Hn Hs eq_refl eq_refl Hc0 Hc1) as (g & Hrun & Hg).
  exists g. do 3 eexists. split; [exact Hrun|].
  split; [apply simulate_collective_accuracy_of_grid; exact Hrun|].
  assert (Hrows : ∀ t row, cells g !! t = Some row →
                    row = replicate (Z.to_nat num_learners) true).
  { intros t row Hrow. rewrite (filled_row _ _ _ _ _ _ _ _ _ Hn Hg Hrow).
    apply list_eq. intros i. rewrite map_fmap, list_lookup_fmap.
    destruct (decide (i < Z.to_nat num_learners)) as [Hi|Hi].
    - rewrite lookup_seq_lt, lookup_replicate_2 by assumption.
      cbn [fmap option_fmap option_map Nat.add]. f_equal.
      destruct Hcs as [-> | ->].
      + rewrite chained_independent by (try reflexivity; intros; apply fresh_draw_range).
        unfold fresh_draw. rewrite draw_1_0_one. reflexivity.
      + rewrite chained_copies by (try reflexivity; intros; apply fresh_draw_range).
        cbn [chained_outcome]. unfold fresh_draw. rewrite draw_1_0_one. reflexivity.
    - rewrite (lookup_ge_None_2 (seq _ _)) by (rewrite length_seq; lia).
      rewrite lookup_ge_None_2 by (rewrite length_replicate; lia). reflexivity. }
  assert (Hlen : length (majority_votes num_learners g) = Z.to_nat num_simulations)
    by (rewrite majority_votes_length; apply Hg).
  assert (Hvotes : majority_votes num_learners g = replicate (Z.to_nat num_simulations) true).
  { symmetry. apply replicate_as_Forall. split; [exact Hlen|].
    apply Forall_lookup. intros t b Hb.
    assert (Ht : t < length (cells g))
      by (rewrite <- (majority_votes_length num_learners); eapply lookup_lt_Some; eassumption).
    destruct (lookup_lt_is_Some_2 (cells g) t Ht) as [row Hrow].
    rewrite (majority_votes_lookup _ _ _ _ Hrow), (Hrows t row Hrow) in Hb.
    rewrite constant_vote in Hb by exact Hn. injection Hb as <-. reflexivity. }
  split; [apply Forall_lookup; exact Hrows|]. split; [exact Hvotes|].
  intros Hbound. apply np_mean_all_true; [rewrite Hlen; lia|].
  rewrite Hvotes. apply Forall_replicate. reflexivity.
Qed.


Section AboveOne.
Local Open Scope Z_scope.





End AboveOne.







Lemma samples_consumed_witness :
  simulate_collective_accuracy correctly_rounded 3 2 0.5 0.5 example_world
  = (inr (0.5%float, [true; false]), World example_source 6 [[2%Z]; [2%Z; 3%Z]])
  ∧ source (World example_source 6 [[2%Z]; [2%Z; 3%Z]]) = source example_world
  ∧ drawn (World example_source 6 [[2%Z]; [2%Z; 3%Z]])
    = drawn example_world + Z.to_nat 3 * Z.to_nat 2
  ∧ allocated (World example_source 6 [[2%Z]; [2%Z; 3%Z]])
    = [2%Z] :: [2%Z; 3%Z] :: allocated example_world.
Proof.
  assert (Hrun : simulate_collective_accuracy correctly_rounded 3 2 0.5 0.5 example_world
                 = (inr (0.5%float, [true; false]),
                    World example_source 6 [[2%Z]; [2%Z; 3%Z]]))
    by (vm_compute; reflexivity).
  split; [exact Hrun|].
  apply (samples_consumed correctly_rounded 3 2 0.5 0.5 example_world _ _
           ltac:(lia) ltac:(lia) eq_refl eq_refl eq_refl eq_refl Hrun).
Defined.

Lemma grid_shape_witness :
  ∃ g w',
    simulate_individual_estimates correctly_rounded 3 2 0.5 0.5 example_world = (inr g, w')
    ∧ nrows g = Z.to_nat 2 ∧ ncols g = Z.to_nat 3
    ∧ length (cells g) = nrows g
    ∧ Forall (λ row, length row = ncols g) (cells g).
Proof.
  apply (grid_shape correctly_rounded 3 2 0.5 0.5 example_world); [lia|lia|reflexivity..].
Defined.

Lemma perfect_correlation_copies_witness :
  ∃ g mean outcomes w',
    simulate_individual_estimates correctly_rounded 3 2 0.5 1 example_world = (inr g, w')
    ∧ simulate_collective_accuracy correctly_rounded 3 2 0.5 1 example_world
      = (inr (mean, outcomes), w')
    ∧ length outcomes = Z.to_nat 2
    ∧ ∀ t row, cells g !! t = Some row →
        ∃ first, row = replicate (Z.to_nat 3) first
                 ∧ first = negb (fresh_draw example_world 2 0.5 0 t =? 0)%Z
                 ∧ outcomes !! t = Some first.
Proof.
  apply (perfect_correlation_copies correctly_rounded 3 2 0.5 example_world);
    [lia|lia|reflexivity..].
Defined.

Lemma negative_correlation_votes_witness :
  ∃ g mean outcomes w',
    simulate_individual_estimates correctly_rounded 4 2 0.5 (-1) example_world = (inr g, w')
    ∧ simulate_collective_accuracy correctly_rounded 4 2 0.5 (-1) example_world
      = (inr (mean, outcomes), w')
    ∧ length outcomes = Z.to_nat 2
    ∧ Forall (λ b, b = false) outcomes
    ∧ mean = 0%float.
Proof.
  destruct (negative_correlation_votes correctly_rounded 4 2 0.5 example_world
              ltac:(lia) ltac:(lia) eq_refl eq_refl)
    as (g & mean & outcomes & w' & Hgrid & Hrun & Hlen & _ & Heven).
  destruct (Heven eq_refl) as [Hall Hmean].
  exists g, mean, outcomes, w'.
  split; [exact Hgrid|]. split; [exact Hrun|]. split; [exact Hlen|].
  split; [exact Hall|]. apply Hmean. reflexivity.
Defined.

Lemma zero_correlation_independent_witness :
  ∃ g w',
    simulate_individual_estimates correctly_rounded 3 2 0.5 0 example_world = (inr g, w')
    ∧ length (cells g) = Z.to_nat 2
    ∧ ∀ t row, cells g !! t = Some row →
        row = map (λ i, negb (fresh_draw example_world 2 0.5 i t =? 0)%Z)
                (seq 0 (Z.to_nat 3)).
Proof.
  apply (zero_correlation_independent correctly_rounded 3 2 0.5 example_world);
    [lia|lia|reflexivity..].
Defined.


Lemma negative_count_refused_witness :
  simulate_collective_accuracy correctly_rounded 3 (-1) 0.5 0.5 example_world
    = (inl ValueError, example_world).
Proof.
  apply (negative_count_refused correctly_rounded 3 (-1) 0.5 0.5 example_world). left. lia.
Defined.




Lemma running_average_prefix_means_witness :
  length (cumulative_accuracies 4 [true; false; true; true]) = 4
  ∧ ∀ k, k < 4 →
      cumulative_accuracies 4 [true; false; true; true] !! k
      = Some (np_mean (take (S k) [true; false; true; true])).
Proof.
  apply (running_average_prefix_means 4 [true; false; true; true]). reflexivity.
Defined.

Lemma slider_values_example : slider_values 100 2 0.5 (-1).
Proof.
  unfold slider_values.
  split; [lia|]. split; [lia|]. split; [reflexivity|]. split; [reflexivity|].
  left. reflexivity.
Defined.

Lemma main_page_witness :
  ∃ mean outcomes w1 p w',
    simulate_collective_accuracy correctly_rounded 100 2 0.5 (-1) example_world
      = (inr (mean, outcomes), w1)
    ∧ main correctly_rounded 100 2 0.5 (-1) example_world = (inr p, w')
    ∧ drawn w' = drawn example_world + 2 * (Z.to_nat 100 * Z.to_nat 2)
    ∧ chart_x p = map Z.of_nat (seq 1 (Z.to_nat 2))
    ∧ length (chart_y p) = Z.to_nat 2
    ∧ Forall (λ y, (0 <=? y)%float = true ∧ (y <=? 1)%float = true) (chart_y p)
    ∧ chart_y p !! (Z.to_nat 2 - 1) = Some mean
    ∧ collective_accuracy_percentage p = (mean * 100)%float.
Proof.
  apply (main_page correctly_rounded 100 2 0.5 (-1) example_world). exact slider_values_example.
Defined.

Lemma negative_slider_even_learners_witness :
  ∃ p w',
    main correctly_rounded 100 2 0.5 (-1) example_world = (inr p, w')
    ∧ collective_accuracy_percentage p = 0%float
    ∧ percentage_colour p = red
    ∧ length (chart_y p) = Z.to_nat 2
    ∧ Forall (λ y, y = 0%float) (chart_y p).
Proof.
  apply (negative_slider_even_learners correctly_rounded 100 2 0.5 example_world);
    [exact slider_values_example|reflexivity].
Defined.

Lemma same_samples_same_result_witness :
  ∃ result w1' w2',
    simulate_collective_accuracy correctly_rounded 3 2 0.5 0.5 example_world = (inr result, w1')
    ∧ simulate_collective_accuracy correctly_rounded 3 2 0.5 0.5
        (World (λ k, example_source (k - 5)) 5 [[7%Z]]) = (inr result, w2').
Proof.
  apply (same_samples_same_result correctly_rounded 3 2 0.5 0.5 example_world
           (World (λ k, example_source (k - 5)) 5 [[7%Z]]));
    [lia|lia|reflexivity..|].
  intros k _. cbn [source drawn example_world].
  replace (5 + k - 5) with (0 + k) by lia. reflexivity.
Defined.

Lemma certain_learners_witness :
  ∃ g mean outcomes w',
    simulate_individual_estimates correctly_rounded 3 2 1 1 example_world = (inr g, w')
    ∧ simulate_collective_accuracy correctly_rounded 3 2 1 1 example_world
      = (inr (mean, outcomes), w')
    ∧ Forall (λ row, row = replicate (Z.to_nat 3) true) (cells g)
    ∧ outcomes = replicate (Z.to_nat 2) true
    ∧ mean = 1%float.
Proof.
  destruct (certain_learners correctly_rounded 3 2 1 example_world ltac:(lia) ltac:(lia)
              (or_intror eq_refl))
    as (g & mean & outcomes & w' & Hgrid & Hrun & Hrows & Hvotes & Hmean).
  exists g, mean, outcomes, w'.
  split; [exact Hgrid|]. split; [exact Hrun|]. split; [exact Hrows|].
  split; [exact Hvotes|]. apply Hmean. reflexivity.
Defined.

